(** * disjoint_set.main.DisjointSet: a shallow embedding and its properties

    The class [DisjointSet] of [src/disjoint_set/main.py] keeps one Python
    dictionary [_data] that maps every known element to its parent.  The
    dictionary is modelled as an insertion-ordered association list, the
    methods as computations in a state-and-failure monad over it. *)

From stdpp Require Import base decidable option list countable gmap.
From stdpp Require Import strings sorting pretty.
From Stdlib Require Import ZArith Lia.

Set Default Proof Using "Type".

(** ** Outcomes and the method monad *)

(** A method call either returns a value together with the new contents of
    [_data], or raises Python's [RuntimeError] ("dictionary changed size
    during iteration"), or exceeds the recursion budget of the model. *)
Inductive result (A : Type) : Type :=
| Ok (a : A)
| RuntimeError
| NoFuel.
Arguments Ok {A} a.
Arguments RuntimeError {A}.
Arguments NoFuel {A}.

Section DisjointSet.
Context {K : Type} `{Countable K}.

(** ** The dictionary [_data] *)

(** A Python [dict] with keys in [K]: the entries in insertion order.  The
    same model serves [_data] and the [element_classes] of [itersets]. *)
Definition keys {V} (d : list (K * V)) : list K := d.*1.

(** Raw lookup, without any default factory. *)
Fixpoint get {V} (d : list (K * V)) (k : K) : option V :=
  match d with
  | [] => None
  | (k', v) :: d' => if decide (k = k') then Some v else get d' k
  end.

(** [d[k] = v] on a plain dict: an existing key keeps its position, a new
    key goes to the end. *)
Fixpoint put {V} (d : list (K * V)) (k : K) (v : V) : list (K * V) :=
  match d with
  | [] => [(k, v)]
  | (k', v') :: d' =>
      if decide (k = k') then (k', v) :: d' else (k', v') :: put d' k v
  end.

(** [_data]: every known element with its parent. *)
Definition dict : Type := list (K * K).

Definition M (A : Type) : Type := dict → result (A * dict).

Definition ret {A} (a : A) : M A := λ d, Ok (a, d).

Definition bind {A B} (m : M A) (k : A → M B) : M B :=
  λ d, match m d with
       | Ok (a, d') => k a d'
       | RuntimeError => RuntimeError
       | NoFuel => NoFuel
       end.

Definition out_of_fuel {A} : M A := λ _, NoFuel.

Notation "x <- m ;; k" := (bind m (λ x, k))
  (at level 20, m at level 99, k at level 200).
Notation "m ;; k" := (bind m (λ _, k))
  (at level 100, k at level 200, right associativity).

(** Modelled from the spec: [ArgDefaultDict] and [identity] of
    [disjoint_set.utils] are not under src/.  Reading [_data[k]] for an
    unseen [k] first inserts [k] as its own parent (the default factory is
    called with the key and is the identity), then returns that value. *)
Definition getitem (k : K) : M K :=
  λ d, match get d k with
       | Some v => Ok (v, d)
       | None => Ok (k, put d k k)
       end.

(** [_data[k] = v]. *)
Definition setitem (k v : K) : M unit := λ d, Ok (tt, put d k v).

(** ** The methods *)

(** [__contains__]: [item in self._data]; membership does not call the
    default factory. *)
Definition contains (item : K) : M bool :=
  λ d, Ok (bool_decide (is_Some (get d item)), d).

(** [__bool__]: [bool(self._data)]. *)
Definition bool_ : M bool :=
  λ d, Ok (match d with [] => false | _ :: _ => true end, d).

(** [find]; [fuel] bounds the depth of the recursion. *)
Fixpoint find (fuel : nat) (x : K) : M K :=
  match fuel with
  | 0 => out_of_fuel
  | S fuel' =>
      v <- getitem x ;;
      if decide (x ≠ v) then
        p <- getitem x ;;
        r <- find fuel' p ;;
        setitem x r ;;
        getitem x
      else
        getitem x
  end.

(** [union]. *)
Definition union (fuel : nat) (x y : K) : M unit :=
  parent_x <- find fuel x ;;
  parent_y <- find fuel y ;;
  if decide (parent_x ≠ parent_y) then setitem parent_x parent_y
  else ret tt.

(** [connected]. *)
Definition connected (fuel : nat) (x y : K) : M bool :=
  rx <- find fuel x ;;
  ry <- find fuel y ;;
  ret (bool_decide (rx = ry)).

(** *** Iterating over [_data]

    A Python dict iterator remembers the size the dict had when the
    iterator was made and the position it has reached.  Every [next] first
    compares the sizes and raises [RuntimeError] when they differ, then
    hands out the key at the position, or stops at the end. *)
Definition dictiter_next (size pos : nat) : M (option K) :=
  λ d, if decide (length d = size) then Ok (fst <$> d !! pos, d)
       else RuntimeError.

(** [for key in self._data: acc = body(key, acc)], from position [pos] on.
    [todo] is the number of entries still ahead; it only serves as the
    structurally decreasing argument and never runs out before the
    iterator stops (see [for_keys_find]). *)
Fixpoint for_keys {A : Type} (body : K → A → M A)
    (size todo pos : nat) (acc : A) : M A :=
  next <- dictiter_next size pos ;;
  match next with
  | None => ret acc
  | Some key =>
      match todo with
      | 0 => out_of_fuel
      | S todo' =>
          acc' <- body key acc ;;
          for_keys body size todo' (S pos) acc'
      end
  end.

(** [__iter__], consumed to the end as by [list(ds)]: the list of the
    yielded pairs. *)
Definition iter (fuel : nat) : M (list (K * K)) :=
  λ d, for_keys (λ key out, r <- find fuel key ;; ret (out ++ [(key, r)]))
         (length d) (length d) 0 [] d.

(** [element_classes], a [defaultdict] from roots to sets, in insertion
    order. *)
Definition classes : Type := list (K * gset K).

(** [element_classes[r].add(element)]: a missing [r] is first bound to the
    empty set by the default factory. *)
Definition classes_add (ec : classes) (r element : K) : classes :=
  put ec r (default ∅ (get ec r) ∪ {[element]}).

(** [itersets], consumed to the end: the list of the yielded sets. *)
Definition itersets (fuel : nat) : M (list (gset K)) :=
  λ d, (element_classes <-
          for_keys (λ element ec,
                      r <- find fuel element ;; ret (classes_add ec r element))
            (length d) (length d) 0 [] ;;
        ret (element_classes.*2)) d.

(** *** [__repr__]

    The elements must be comparable for [sorted]: [less] is their [<].
    [str_elem] and [repr_elem] are the [str] and the [repr] of an element.
    The three are arguments of the model. *)

(** [<] on the items [(key, value)]: Python compares tuples at the first
    position where they differ. *)
Definition item_lt (less : K → K → bool) (a b : K * K) : bool :=
  if decide (a.1 = b.1) then
    if decide (a.2 = b.2) then false else less a.2 b.2
  else less a.1 b.1.

(** [sorted]: a stable sort that only asks [<]. *)
Fixpoint insert_item (less : K → K → bool) (x : K * K) (l : list (K * K))
    : list (K * K) :=
  match l with
  | [] => [x]
  | y :: l' =>
      if item_lt less y x then y :: insert_item less x l' else x :: l
  end.

Definition sorted (less : K → K → bool) (l : list (K * K)) : list (K * K) :=
  foldr (insert_item less) [] l.

(** [value_dict[value].append(key)]: a missing [value] is first bound to
    the empty list. *)
Definition value_dict_add (vd : list (K * list K)) (key value : K)
    : list (K * list K) :=
  put vd value (default [] (get vd value) ++ [key]).

(** [value_dict] after the loop over the sorted items of [_data]. *)
Definition value_dict (less : K → K → bool) (d : dict) : list (K * list K) :=
  foldl (λ vd item, value_dict_add vd item.1 item.2) [] (sorted less d).

(** [str] of a list of elements. *)
Definition str_list (repr_elem : K → string) (l : list K) : string :=
  "[" +:+ String.concat ", " (repr_elem <$> l) +:+ "]".

(** [__repr__]; the class name is that of [DisjointSet] itself. *)
Definition repr (less : K → K → bool) (str_elem repr_elem : K → string)
    : M string :=
  λ d, Ok ("DisjointSet(" +:+
           String.concat ", "
             ((λ entry, str_elem entry.1 +:+ " <- " +:+
                        str_list repr_elem entry.2)
                <$> value_dict less d) +:+
           ")", d).

(** ** Sequences of calls and reachable states *)

Inductive op : Type :=
| Contains (x : K)
| Bool
| Find (x : K)
| Union (x y : K)
| Connected (x y : K)
| Iter
| Itersets.

Inductive value : Type :=
| VBool (b : bool)
| VKey (k : K)
| VNone
| VPairs (l : list (K * K))
| VSets (l : list (gset K)).

Definition exec (fuel : nat) (o : op) : M value :=
  match o with
  | Contains x => b <- contains x ;; ret (VBool b)
  | Bool => b <- bool_ ;; ret (VBool b)
  | Find x => r <- find fuel x ;; ret (VKey r)
  | Union x y => union fuel x y ;; ret VNone
  | Connected x y => b <- connected fuel x y ;; ret (VBool b)
  | Iter => l <- iter fuel ;; ret (VPairs l)
  | Itersets => l <- itersets fuel ;; ret (VSets l)
  end.

Fixpoint run (fuel : nat) (os : list op) : M (list value) :=
  match os with
  | [] => ret []
  | o :: os' => v <- exec fuel o ;; vs <- run fuel os' ;; ret (v :: vs)
  end.

(** [__init__] makes the empty dictionary; every other state of the object
    comes from it by method calls that returned. *)
Definition init : dict := [].

Inductive reachable : dict → Prop :=
| reachable_init : reachable init
| reachable_exec fuel o d v d' :
    reachable d → exec fuel o d = Ok (v, d') → reachable d'.

(** ** Following parent links *)

(** The root met by following at most [n] links upwards from [k]; [None]
    when [k] is no key or the walk needs more steps. *)
Fixpoint root_of (n : nat) (d : dict) (k : K) : option K :=
  match n with
  | 0 => None
  | S n' =>
      match get d k with
      | None => None
      | Some p => if decide (p = k) then Some k else root_of n' d p
      end
  end.

(** The nodes visited on that walk, the root included. *)
Fixpoint path_of (n : nat) (d : dict) (k : K) : list K :=
  match n with
  | 0 => []
  | S n' =>
      match get d k with
      | None => []
      | Some p => if decide (p = k) then [k] else k :: path_of n' d p
      end
  end.

(** The [n]-th ancestor of [k]. *)
Fixpoint ancestor (n : nat) (d : dict) (k : K) : option K :=
  match n with
  | 0 => Some k
  | S n' => match get d k with
            | None => None
            | Some p => ancestor n' d p
            end
  end.

Definition reaches (d : dict) (k r : K) : Prop := ∃ n, root_of n d k = Some r.

Definition is_root (d : dict) (r : K) : Prop := get d r = Some r.

(** Two elements are in one class when their walks end in one root. *)
Definition same (d : dict) (x y : K) : Prop :=
  ∃ r, reaches d x r ∧ reaches d y r.

(** Every walk from a key ends within [n] links. *)
Definition tall (n : nat) (d : dict) : Prop :=
  ∀ k, k ∈ keys d → is_Some (root_of n d k).

(** The invariant as the specification words it: the walk from a key ends at
    exactly one root, and a key is on no cycle except a root's self-loop. *)
Definition forest (d : dict) : Prop :=
  ∀ k, k ∈ keys d →
    (∃ r, reaches d k r ∧ is_root d r ∧ ∀ r', reaches d k r' → r' = r) ∧
    (∀ m, 0 < m → ancestor m d k = Some k → is_root d k).

(** The state invariant: keys are unique and every key has a root. *)
Definition inv (d : dict) : Prop :=
  NoDup (keys d) ∧ ∃ n, tall n d.

(** ** Notions used to state and prove the properties *)

(** The dictionary after the auto-vivification of [x]. *)
Definition vivify (x : K) (d : dict) : dict :=
  match get d x with Some _ => d | None => put d x x end.

(** [d'] keeps every walk of [d], with no more steps. *)
Definition keeps_roots (d d' : dict) : Prop :=
  ∀ n k r, root_of n d k = Some r → root_of n d' k = Some r.

(** Where the root [r] of a class ends up when [rx] is linked under [ry]. *)
Definition link_to (rx ry r : K) : K := if decide (r = rx) then ry else r.

(** A computation whose result, once there, does not depend on the fuel. *)
Definition fuel_mono {A} (m : nat → M A) : Prop :=
  ∀ f f' d a d', m f d = Ok (a, d') → f ≤ f' → m f' d = Ok (a, d').

(** [ρ] names the root of every key, met within [n] links. *)
Definition rooted (n : nat) (ρ : K → K) (d : dict) : Prop :=
  ∀ k, k ∈ keys d → root_of n d k = Some (ρ k).

(** From [d] to [d']: keys stay and classes stay together. *)
Definition evolves (d d' : dict) : Prop :=
  keys d ⊆ keys d' ∧ ∀ x y, same d x y → same d' x y.

(** [ec] groups exactly the elements of [l] by [ρ]. *)
Definition grouped (ρ : K → K) (l : list K) (ec : classes) : Prop :=
  NoDup (keys ec) ∧
  (∀ r k, k ∈ default ∅ (get ec r) ↔ k ∈ l ∧ ρ k = r) ∧
  (∀ r, is_Some (get ec r) → ∃ k, k ∈ l ∧ ρ k = r).

(** The [element_classes] that [itersets] builds when [ρ] gives the roots. *)
Definition group (ρ : K → K) (l : list K) : classes :=
  foldl (λ ec k, classes_add ec (ρ k) k) [] l.

(** The classes of [D] after the classes of [x] and of [y] have been made
    one: [a] and [b] were together already, or each was with [x] or [y]. *)
Definition merged (D : dict) (x y a b : K) : Prop :=
  same D a b ∨ ((same D a x ∨ same D a y) ∧ (same D b x ∨ same D b y)).

(** The key list once [x] has been referenced: an unseen [x] goes to the
    end. *)
Definition track (ks : list K) (x : K) : list K :=
  if decide (x ∈ ks) then ks else ks ++ [x].

(** The key list after a call of [o] that returned. *)
Definition keys_after (o : op) (ks : list K) : list K :=
  match o with
  | Find x => track ks x
  | Union x y | Connected x y => track (track ks x) y
  | Contains _ | Bool | Iter | Itersets => ks
  end.

(** ** The dictionary *)

Lemma get_put {V} (d : list (K * V)) k (v : V) k' :
  get (put d k v) k' = if decide (k' = k) then Some v else get d k'.
Proof.
  induction d as [|[a b] d IH]; simpl.
  - by repeat case_decide.
  - destruct (decide (k = a)) as [->|Hka]; simpl.
    + destruct (decide (k' = a)); done.
    + rewrite IH. destruct (decide (k' = a)) as [->|]; [|done].
      by rewrite decide_False.
Qed.

Lemma get_put_eq {V} (d : list (K * V)) k (v : V) : get (put d k v) k = Some v.
Proof. by rewrite get_put, decide_True. Qed.

Lemma get_put_ne {V} (d : list (K * V)) k (v : V) k' : k' ≠ k → get (put d k v) k' = get d k'.
Proof. intros. by rewrite get_put, decide_False. Qed.

Lemma get_is_Some {V} (d : list (K * V)) k : is_Some (get d k) ↔ k ∈ keys d.
Proof.
  unfold keys. induction d as [|[a b] d IH]; simpl.
  - split; [by intros [? ?] | by intros ?%elem_of_nil].
  - case_decide; simplify_eq.
    + split; [intros _; by left | by eauto].
    + rewrite IH. split; [by right|]. by intros [?|?]%elem_of_cons.
Qed.

Lemma get_None {V} (d : list (K * V)) k : get d k = None ↔ k ∉ keys d.
Proof. rewrite <-get_is_Some, eq_None_not_Some. done. Qed.

Lemma keys_put_in {V} (d : list (K * V)) k (v : V) : k ∈ keys d → keys (put d k v) = keys d.
Proof.
  unfold keys. induction d as [|[a b] d IH]; simpl.
  - by intros ?%elem_of_nil.
  - intros Hin. case_decide; simplify_eq; simpl; [done|].
    f_equal. apply IH. by apply elem_of_cons in Hin as [?|?].
Qed.

Lemma keys_put_notin {V} (d : list (K * V)) k (v : V) : k ∉ keys d → keys (put d k v) = keys d ++ [k].
Proof.
  unfold keys. induction d as [|[a b] d IH]; simpl; [done|].
  intros Hin. apply not_elem_of_cons in Hin as [? ?].
  rewrite decide_False by done. simpl. f_equal. by apply IH.
Qed.

Lemma keys_put {V} (d : list (K * V)) k (v : V) :
  keys (put d k v) = if decide (k ∈ keys d) then keys d else keys d ++ [k].
Proof. case_decide; [by apply keys_put_in | by apply keys_put_notin]. Qed.

Lemma NoDup_keys_put {V} (d : list (K * V)) k (v : V) : NoDup (keys d) → NoDup (keys (put d k v)).
Proof.
  intros Hnd. rewrite keys_put. case_decide; [done|].
  apply NoDup_app. split_and!; [done| |apply NoDup_singleton].
  intros x Hx ->%list_elem_of_singleton. done.
Qed.

Lemma length_keys {V} (d : list (K * V)) : length (keys d) = length d.
Proof. unfold keys. by rewrite length_fmap. Qed.

Lemma keys_lookup {V} (d : list (K * V)) i : keys d !! i = fst <$> d !! i.
Proof. unfold keys. by rewrite list_lookup_fmap. Qed.

(** ** Walks to the root *)

Lemma root_of_equation_S n d k :
  root_of (S n) d k =
  match get d k with
  | None => None
  | Some p => if decide (p = k) then Some k else root_of n d p
  end.
Proof. done. Qed.

Lemma root_of_pos n d k r : root_of n d k = Some r → 0 < n.
Proof. destruct n; [done | lia]. Qed.

Lemma root_of_mono n m d k r :
  root_of n d k = Some r → n ≤ m → root_of m d k = Some r.
Proof.
  revert m k. induction n as [|n IH]; intros m k; simpl; [done|].
  intros Hr Hle. destruct m as [|m]; [lia|]. simpl.
  destruct (get d k) as [p|]; [|done].
  case_decide; [done|]. apply IH; [done | lia].
Qed.

Lemma root_of_det n m d k r r' :
  root_of n d k = Some r → root_of m d k = Some r' → r = r'.
Proof.
  intros Hn Hm.
  apply (root_of_mono _ (n `max` m)) in Hn; [|lia].
  apply (root_of_mono _ (n `max` m)) in Hm; [|lia].
  congruence.
Qed.

Lemma root_of_is_root n d k r : root_of n d k = Some r → is_root d r.
Proof.
  revert k. induction n as [|n IH]; intros k; simpl; [done|].
  destruct (get d k) as [p|] eqn:Hp; [|done].
  case_decide; simplify_eq; [by intros [= <-] | by apply IH].
Qed.

Lemma root_of_in_keys n d k r : root_of n d k = Some r → k ∈ keys d.
Proof.
  destruct n; simpl; [done|]. intros Hr. apply get_is_Some.
  destruct (get d k); [by eexists | done].
Qed.

Lemma root_of_root n d r : is_root d r → root_of (S n) d r = Some r.
Proof. unfold is_root. intros Hr. simpl. by rewrite Hr, decide_True. Qed.

Lemma root_of_step n d k p :
  get d k = Some p → p ≠ k → root_of (S n) d k = root_of n d p.
Proof. intros Hk Hne. simpl. by rewrite Hk, decide_False. Qed.

Lemma path_of_root n d k k' r :
  root_of n d k = Some r → k' ∈ path_of n d k → root_of n d k' = Some r.
Proof.
  revert k. induction n as [|n IH]; intros k; simpl; [done|].
  destruct (get d k) as [p|] eqn:Hp; [|done].
  case_decide; simplify_eq.
  - intros [= <-] ->%list_elem_of_singleton. simpl. by rewrite Hp, decide_True.
  - intros Hr [->|Hin]%elem_of_cons.
    + simpl. by rewrite Hp, decide_False.
    + apply (root_of_mono n (S n)); [by apply (IH p) | lia].
Qed.

Lemma path_of_start n d k r : root_of n d k = Some r → k ∈ path_of n d k.
Proof.
  destruct n as [|n]; simpl; [done|].
  destruct (get d k) as [p|]; [|done]. case_decide; intros _; by left.
Qed.

Lemma path_of_end n d k r : root_of n d k = Some r → r ∈ path_of n d k.
Proof.
  revert k. induction n as [|n IH]; intros k; simpl; [done|].
  destruct (get d k) as [p|]; [|done]. case_decide.
  - intros [= <-]. by left.
  - intros Hr. right. by apply IH.
Qed.

(** Walking on from an ancestor. *)
Lemma root_of_ancestor n m d k k' r :
  root_of n d k = Some r → ancestor m d k = Some k' →
  k' = r ∨ (m < n ∧ root_of (n - m) d k' = Some r).
Proof.
  revert n k. induction m as [|m IH]; intros n k Hr; simpl.
  - intros [= <-]. right. split; [by eapply root_of_pos|].
    by replace (n - 0) with n by lia.
  - destruct n as [|n]; [done|]. simpl in Hr.
    destruct (get d k) as [p|] eqn:Hp; [|done].
    case_decide; simplify_eq.
    + intros Ha. left. clear IH. revert Ha. induction m as [|m IHm]; simpl.
      * by intros [= <-].
      * by rewrite Hp.
    + intros Ha. destruct (IH n p Hr Ha) as [?|[? ?]]; [by left|].
      right. split; [lia|]. by replace (S n - S m) with (n - m) by lia.
Qed.

(** A key that has a root lies on no cycle, unless it is the root. *)
Lemma root_of_acyclic n m d k r :
  root_of n d k = Some r → 0 < m → ancestor m d k = Some k → is_root d k.
Proof.
  revert k. induction (lt_wf n) as [n _ IH]. intros k Hr Hm Ha.
  destruct (root_of_ancestor _ _ _ _ _ _ Hr Ha) as [->|[Hlt Hr']].
  - by eapply root_of_is_root.
  - eapply (IH (n - m)); [lia|done..].
Qed.

Lemma getitem_vivify x d :
  getitem x d = Ok (default x (get d x), vivify x d).
Proof. unfold getitem, vivify. by destruct (get d x). Qed.

Lemma vivify_in x d : x ∈ keys d → vivify x d = d.
Proof. intros [v Hv]%get_is_Some. unfold vivify. by rewrite Hv. Qed.

Lemma vivify_notin x d : x ∉ keys d → vivify x d = put d x x.
Proof. intros Hx%get_None. unfold vivify. by rewrite Hx. Qed.

Lemma keys_vivify x d :
  keys (vivify x d) = if decide (x ∈ keys d) then keys d else keys d ++ [x].
Proof.
  case_decide.
  - by rewrite vivify_in.
  - by rewrite vivify_notin, keys_put_notin.
Qed.

Lemma elem_of_keys_vivify x d : x ∈ keys (vivify x d).
Proof. rewrite keys_vivify. case_decide; set_solver. Qed.

Lemma get_vivify x d k :
  get (vivify x d) k =
  if decide (k ∈ keys d) then get d k else if decide (k = x) then Some k else None.
Proof.
  unfold vivify. destruct (get d x) as [v|] eqn:Hx.
  - case_decide as Hk; [done|]. apply get_None in Hk.
    rewrite Hk. case_decide; simplify_eq. done.
  - rewrite get_put. apply get_None in Hx.
    repeat case_decide; simplify_eq; try done. by apply get_None.
Qed.

Lemma get_vivify_Some x d k v :
  get d k = Some v → get (vivify x d) k = Some v.
Proof.
  intros Hk. rewrite get_vivify, decide_True; [done|].
  apply get_is_Some. by eexists.
Qed.

Lemma vivify_idemp x d : vivify x (vivify x d) = vivify x d.
Proof. apply vivify_in, elem_of_keys_vivify. Qed.

Lemma NoDup_keys_vivify x d : NoDup (keys d) → NoDup (keys (vivify x d)).
Proof. unfold vivify. destruct (get d x); [done|]. apply NoDup_keys_put. Qed.

Lemma keeps_roots_refl d : keeps_roots d d.
Proof. by intros n k r. Qed.

Lemma keeps_roots_trans d1 d2 d3 :
  keeps_roots d1 d2 → keeps_roots d2 d3 → keeps_roots d1 d3.
Proof. intros H12 H23 n k r Hr. eauto. Qed.

Lemma keeps_roots_get d d' :
  (∀ k v, get d k = Some v → get d' k = Some v) → keeps_roots d d'.
Proof.
  intros Hget n. induction n as [|n IH]; intros k r; simpl; [done|].
  destruct (get d k) as [p|] eqn:Hp; [|done].
  rewrite (Hget _ _ Hp). case_decide; [done|]. apply IH.
Qed.

Lemma keeps_roots_vivify x d : keeps_roots d (vivify x d).
Proof. apply keeps_roots_get. intros k v. apply get_vivify_Some. Qed.

Lemma root_of_vivify_new x d : x ∉ keys d → root_of 1 (vivify x d) x = Some x.
Proof.
  intros Hx. simpl. rewrite get_vivify, decide_False, decide_True by done.
  by rewrite decide_True.
Qed.

Lemma get_vivify_self x d : get (vivify x d) x = Some (default x (get d x)).
Proof.
  unfold vivify. destruct (get d x) as [v|] eqn:Hx; simpl; [done|].
  apply get_put_eq.
Qed.

(** ** [find] *)

(** One unfolding of [find], with the dictionary reads resolved. *)
Lemma find_unfold fuel x d :
  find (S fuel) x d =
  let v := default x (get d x) in
  if decide (x ≠ v) then
    match find fuel v (vivify x d) with
    | Ok (r, d1) => Ok (r, put d1 x r)
    | RuntimeError => RuntimeError
    | NoFuel => NoFuel
    end
  else Ok (v, vivify x d).
Proof.
  cbn [find]. unfold bind at 1. rewrite getitem_vivify. cbn zeta.
  pose proof (get_vivify_self x d) as Hv.
  case_decide.
  - unfold bind at 1. rewrite getitem_vivify, vivify_idemp, Hv. cbn [default].
    unfold bind at 1. destruct (find fuel _ _) as [[r d1]| |]; [|done..].
    unfold bind, setitem. rewrite getitem_vivify.
    rewrite get_put_eq. cbn [default]. unfold vivify. by rewrite get_put_eq.
  - rewrite getitem_vivify, vivify_idemp, Hv. done.
Qed.

Lemma find_unfold_link fuel x d p :
  get d x = Some p → p ≠ x →
  find (S fuel) x d =
  match find fuel p d with
  | Ok (r, d1) => Ok (r, put d1 x r)
  | RuntimeError => RuntimeError
  | NoFuel => NoFuel
  end.
Proof.
  intros Hp Hne. rewrite find_unfold. unfold vivify. rewrite Hp. cbn.
  by rewrite decide_True by congruence.
Qed.

Lemma find_fuel_mono fuel fuel' x d r d' :
  find fuel x d = Ok (r, d') → fuel ≤ fuel' → find fuel' x d = Ok (r, d').
Proof.
  revert fuel' x d r d'. induction fuel as [|fuel IH]; intros fuel' x d r d'.
  { done. }
  intros Hf Hle. destruct fuel' as [|fuel']; [lia|].
  rewrite find_unfold in Hf |- *. cbn zeta in *. case_decide; [|done].
  destruct (find fuel _ _) as [[r1 d1]| |] eqn:Hrec; [|done..].
  erewrite IH; [done..|lia].
Qed.

Lemma find_not_RuntimeError fuel x d : find fuel x d ≠ RuntimeError.
Proof.
  revert x d. induction fuel as [|fuel IH]; intros x d; [done|].
  rewrite find_unfold. cbn zeta. case_decide; [|done].
  destruct (find fuel _ _) as [[r1 d1]| |] eqn:Hrec; [done| |done].
  by apply IH in Hrec.
Qed.

(** What [find] returns and what it leaves behind, when the walk from [x]
    ends within [n] links. *)
Lemma find_spec n fuel x d r :
  root_of n (vivify x d) x = Some r → n ≤ fuel →
  ∃ d', find fuel x d = Ok (r, d') ∧
        keys d' = keys (vivify x d) ∧
        ∀ k, get d' k = if decide (k ∈ path_of n (vivify x d) x) then Some r
                        else get (vivify x d) k.
Proof.
  revert fuel x d. induction n as [|n IH]; intros fuel x d; [done|].
  intros Hr Hle. destruct fuel as [|fuel]; [lia|].
  rewrite find_unfold. cbn zeta.
  pose proof (get_vivify_self x d) as Hv.
  set (d0 := vivify x d) in *. set (v := default x (get d x)) in *.
  cbn [root_of path_of] in *. rewrite Hv in Hr |- *.
  destruct (decide (v = x)) as [Hvx|Hvx].
  - rewrite decide_False by (intros ?; congruence). simplify_eq.
    exists d0. split_and!; [by rewrite Hvx|done|].
    intros k. case_decide as Hk; [|done].
    apply list_elem_of_singleton in Hk as ->. by rewrite Hv, Hvx.
  - rewrite decide_True by congruence.
    assert (vivify v d0 = d0) as Hviv.
    { apply vivify_in. by eapply root_of_in_keys. }
    destruct (IH fuel v d0) as (d1 & Hf & Hkeys & Hget);
      [by rewrite Hviv | lia |].
    rewrite Hviv in Hkeys, Hget. rewrite Hf.
    exists (put d1 x r). split_and!; [done| |].
    + rewrite keys_put_in; [done|]. rewrite Hkeys. apply elem_of_keys_vivify.
    + intros k. rewrite get_put, Hget.
      destruct (decide (k = x)) as [->|Hkx].
      * rewrite decide_True; [done|by left].
      * case_decide as Hk.
        -- rewrite decide_True; [done|by right].
        -- rewrite decide_False; [done|]. by intros [?|?]%elem_of_cons.
Qed.

(** Redirecting the nodes of a walk to its root keeps every walk. *)
Lemma compress_keeps_roots n d0 x r d' :
  root_of n d0 x = Some r →
  (∀ k, get d' k = if decide (k ∈ path_of n d0 x) then Some r else get d0 k) →
  keeps_roots d0 d'.
Proof.
  intros Hr Hget m. induction m as [|m IH]; intros k r'; [done|].
  cbn [root_of]. rewrite Hget.
  destruct (get d0 k) as [q|] eqn:Hq; [|done].
  pose proof (root_of_is_root _ _ _ _ Hr) as Hroot.
  destruct (decide (k ∈ path_of n d0 x)) as [Hk|Hk]; [|by case_decide; eauto].
  pose proof (path_of_root _ _ _ _ _ Hr Hk) as Hkr.
  destruct (decide (q = k)) as [->|Hqk].
  - intros [= <-]. assert (r = k) as ->; [|by rewrite decide_True].
    eapply root_of_det; [done|]. by apply (root_of_root 0).
  - intros Hr'.
    assert (r' = r) as ->.
    { eapply root_of_det; [|exact Hkr].
      erewrite <-(root_of_step m) in Hr'; done. }
    rewrite decide_False.
    2:{ intros ->. unfold is_root in Hroot. congruence. }
    destruct m as [|m]; [done|]. cbn [root_of].
    rewrite Hget, decide_True by (by eapply path_of_end).
    by rewrite decide_True.
Qed.

Lemma find_keeps_roots n fuel x d r :
  root_of n (vivify x d) x = Some r → n ≤ fuel →
  ∃ d', find fuel x d = Ok (r, d') ∧
        keys d' = keys (vivify x d) ∧
        keeps_roots d d' ∧ is_root d' r ∧ root_of 1 d' r = Some r.
Proof.
  intros Hr Hle. destruct (find_spec _ _ _ _ _ Hr Hle) as (d' & Hf & Hk & Hg).
  exists d'. split_and!; [done..| | |].
  - eapply keeps_roots_trans; [apply keeps_roots_vivify|].
    by eapply compress_keeps_roots.
  - unfold is_root. rewrite Hg, decide_True; [done|]. by eapply path_of_end.
  - apply root_of_root. unfold is_root.
    rewrite Hg, decide_True; [done|]. by eapply path_of_end.
Qed.

(** ** Linking two roots *)

Lemma link_roots d rx ry n k r :
  is_root d rx → is_root d ry → rx ≠ ry →
  root_of n d k = Some r →
  root_of (S n) (put d rx ry) k = Some (link_to rx ry r).
Proof.
  unfold is_root, link_to. intros Hrx Hry Hne. revert k.
  induction n as [|n IH]; intros k; [done|]. intros Hr.
  cbn [root_of] in Hr. rewrite root_of_equation_S, get_put.
  destruct (decide (k = rx)) as [->|Hk].
  - rewrite Hrx, decide_True in Hr by done. simplify_eq.
    rewrite decide_False, decide_True by done.
    cbn [root_of]. rewrite get_put_ne, Hry by done. by rewrite decide_True.
  - destruct (get d k) as [q|]; [|done].
    case_decide; simplify_eq; [by rewrite decide_False|]. by apply IH.
Qed.

(** ** Bounded height *)

Lemma tall_mono n m d : tall n d → n ≤ m → tall m d.
Proof.
  intros Ht Hle k Hk. destruct (Ht k Hk) as [r Hr].
  exists r. by eapply root_of_mono.
Qed.

Lemma tall_keeps n d d' :
  tall n d → keys d' = keys d → keeps_roots d d' → tall n d'.
Proof.
  intros Ht Hkeys Hkeep k Hk. rewrite Hkeys in Hk.
  destruct (Ht k Hk) as [r Hr]. exists r. by apply Hkeep.
Qed.

Lemma tall_vivify n x d : tall n d → tall (S n) (vivify x d).
Proof.
  intros Ht k Hk. rewrite keys_vivify in Hk.
  destruct (decide (x ∈ keys d)) as [Hx|Hx].
  - destruct (Ht k Hk) as [r Hr]. exists r.
    apply keeps_roots_vivify. eapply root_of_mono; [done|lia].
  - apply elem_of_app in Hk as [Hk| ->%list_elem_of_singleton].
    + destruct (Ht k Hk) as [r Hr]. exists r.
      apply keeps_roots_vivify. eapply root_of_mono; [done|lia].
    + exists x. eapply root_of_mono; [by apply root_of_vivify_new | lia].
Qed.

Lemma keys_link d rx ry : is_root d rx → keys (put d rx ry) = keys d.
Proof. intros Hrx. apply keys_put_in, get_is_Some. by eexists. Qed.

Lemma tall_link n d rx ry :
  tall n d → is_root d rx → is_root d ry → rx ≠ ry →
  tall (S n) (put d rx ry).
Proof.
  intros Ht Hrx Hry Hne k Hk. rewrite keys_link in Hk by done.
  destruct (Ht k Hk) as [r Hr]. eexists. by apply link_roots.
Qed.

Lemma find_tall n fuel x d :
  tall n (vivify x d) → n ≤ fuel →
  ∃ r d', find fuel x d = Ok (r, d') ∧
          root_of n (vivify x d) x = Some r ∧
          keys d' = keys (vivify x d) ∧
          keeps_roots (vivify x d) d' ∧ tall n d' ∧ is_root d' r.
Proof.
  intros Ht Hle.
  destruct (Ht x (elem_of_keys_vivify x d)) as [r Hr].
  destruct (find_spec _ _ _ _ _ Hr Hle) as (d' & Hf & Hk & Hg).
  assert (keeps_roots (vivify x d) d') by (by eapply compress_keeps_roots).
  exists r, d'. split_and!; [done..| |].
  - by eapply tall_keeps.
  - unfold is_root. rewrite Hg, decide_True; [done|]. by eapply path_of_end.
Qed.

Lemma keys_vivify_congr x (d d' : dict) :
  keys d' = keys d → keys (vivify x d') = keys (vivify x d).
Proof. intros Hk. by rewrite !keys_vivify, Hk. Qed.

(** The two calls of [find] that open [union] and [connected]. *)
Lemma find_find_spec n fuel x y d :
  tall n d → n + 2 ≤ fuel →
  ∃ rx ry d1 d2,
    find fuel x d = Ok (rx, d1) ∧ find fuel y d1 = Ok (ry, d2) ∧
    keys d2 = keys (vivify y (vivify x d)) ∧
    keeps_roots d d2 ∧ tall (n + 2) d2 ∧
    is_root d2 rx ∧ is_root d2 ry ∧
    root_of (n + 2) d2 x = Some rx ∧ root_of (n + 2) d2 y = Some ry ∧
    reaches (vivify y (vivify x d)) x rx ∧
    reaches (vivify y (vivify x d)) y ry.
Proof.
  intros Ht Hle. replace (n + 2) with (S (S n)) in * by lia.
  destruct (find_tall (S n) fuel x d) as (rx & d1 & Hfx & Hrx & Hk1 & Hkeep1 & Ht1 & Hroot1);
    [by apply tall_vivify | lia |].
  destruct (find_tall (S (S n)) fuel y d1) as (ry & d2 & Hfy & Hry & Hk2 & Hkeep2 & Ht2 & Hroot2);
    [by apply tall_vivify | lia |].
  assert (keeps_roots d1 d2) as Hkeep12.
  { eapply keeps_roots_trans; [apply keeps_roots_vivify | done]. }
  exists rx, ry, d1, d2. split_and!; [done|done| | |done| |done| | | |].
  - rewrite Hk2. by apply keys_vivify_congr.
  - eapply keeps_roots_trans; [apply keeps_roots_vivify|].
    by eapply keeps_roots_trans.
  - apply (root_of_is_root 1 d2 rx). apply Hkeep12. by apply root_of_root.
  - apply Hkeep12, Hkeep1. eapply root_of_mono; [done|lia].
  - by apply Hkeep2.
  - exists (S n). by apply keeps_roots_vivify.
  - destruct (decide (y ∈ keys (vivify x d))) as [Hy|Hy].
    + rewrite vivify_in by done.
      destruct (Ht1 y) as [ry0 Hry0]; [by rewrite Hk1|].
      destruct (tall_vivify n x d Ht y Hy) as [ry1 Hry1].
      assert (ry1 = ry) as <-; [|by eexists].
      rewrite vivify_in in Hry by (by rewrite Hk1).
      apply Hkeep1 in Hry1. eapply root_of_det; [done|]. done.
    + exists 1. rewrite (root_of_vivify_new _ _ Hy). f_equal.
      rewrite <-Hk1 in Hy. pose proof (root_of_vivify_new _ _ Hy) as Hy1.
      eapply root_of_det; done.
Qed.

(** ** [union] and [connected] *)

Lemma union_unfold fuel x y d :
  union fuel x y d =
  match find fuel x d with
  | Ok (rx, d1) =>
      match find fuel y d1 with
      | Ok (ry, d2) =>
          Ok (tt, if decide (rx ≠ ry) then put d2 rx ry else d2)
      | RuntimeError => RuntimeError
      | NoFuel => NoFuel
      end
  | RuntimeError => RuntimeError
  | NoFuel => NoFuel
  end.
Proof.
  unfold union, bind. destruct (find fuel x d) as [[rx d1]| |]; [|done..].
  destruct (find fuel y d1) as [[ry d2]| |]; [|done..].
  by case_decide.
Qed.

Lemma connected_unfold fuel x y d :
  connected fuel x y d =
  match find fuel x d with
  | Ok (rx, d1) =>
      match find fuel y d1 with
      | Ok (ry, d2) => Ok (bool_decide (rx = ry), d2)
      | RuntimeError => RuntimeError
      | NoFuel => NoFuel
      end
  | RuntimeError => RuntimeError
  | NoFuel => NoFuel
  end.
Proof.
  unfold connected, bind. destruct (find fuel x d) as [[rx d1]| |]; [|done..].
  by destruct (find fuel y d1) as [[ry d2]| |].
Qed.

Lemma link_to_same rx r : link_to rx rx r = r.
Proof. unfold link_to. by case_decide. Qed.

Lemma union_spec n fuel x y d :
  tall n d → n + 2 ≤ fuel →
  ∃ rx ry d1 d2 d',
    find fuel x d = Ok (rx, d1) ∧ find fuel y d1 = Ok (ry, d2) ∧
    d' = (if decide (rx ≠ ry) then put d2 rx ry else d2) ∧
    union fuel x y d = Ok (tt, d') ∧
    keys d' = keys (vivify y (vivify x d)) ∧
    tall (n + 3) d' ∧
    (∀ m k r, root_of m d k = Some r →
              root_of (S m) d' k = Some (link_to rx ry r)) ∧
    root_of (n + 3) d' x = Some ry ∧ root_of (n + 3) d' y = Some ry ∧
    keys d2 = keys (vivify y (vivify x d)) ∧ keeps_roots d d2 ∧
    tall (n + 2) d2 ∧ is_root d2 rx ∧ is_root d2 ry ∧
    reaches (vivify y (vivify x d)) x rx ∧
    reaches (vivify y (vivify x d)) y ry.
Proof.
  intros Ht Hle.
  destruct (find_find_spec n fuel x y d Ht Hle)
    as (rx & ry & d1 & d2 & Hfx & Hfy & Hk & Hkeep & Ht2 & Hrx & Hry & Hx & Hy & Hx0 & Hy0).
  exists rx, ry, d1, d2. eexists.
  split_and!; [done|done|done| | | | | | |done..].
  { by rewrite union_unfold, Hfx, Hfy. }
  all: replace (n + 3) with (S (n + 2)) by lia.
  all: destruct (decide (rx ≠ ry)) as [Hne|Heq%dec_stable].
  - by rewrite keys_link.
  - done.
  - by apply tall_link.
  - eapply tall_mono; [done|lia].
  - intros m k r Hr. apply link_roots; [done..|]. by apply Hkeep.
  - intros m k r Hr. subst ry. rewrite link_to_same.
    eapply root_of_mono; [by apply Hkeep|lia].
  - erewrite link_roots; [|done..]. unfold link_to. by rewrite decide_True.
  - subst. eapply root_of_mono; [done|lia].
  - erewrite link_roots; [|done..]. unfold link_to.
    by rewrite decide_False by congruence.
  - eapply root_of_mono; [done|lia].
Qed.

(** ** More fuel changes nothing *)

Lemma fuel_mono_const {A} (m : M A) : fuel_mono (λ _, m).
Proof. by intros f f' d a d'. Qed.

Lemma fuel_mono_bind {A B} (m : nat → M A) (k : nat → A → M B) :
  fuel_mono m → (∀ a, fuel_mono (λ f, k f a)) →
  fuel_mono (λ f, bind (m f) (k f)).
Proof.
  intros Hm Hk f f' d b d'. unfold bind.
  destruct (m f d) as [[a d1]| |] eqn:Hmf; [|done..].
  intros Hkf Hle. rewrite (Hm _ _ _ _ _ Hmf Hle). by eapply (Hk a).
Qed.

Lemma fuel_mono_find x : fuel_mono (λ f, find f x).
Proof. intros f f' d a d'. apply find_fuel_mono. Qed.

Lemma fuel_mono_union x y : fuel_mono (λ f, union f x y).
Proof.
  unfold union. apply fuel_mono_bind; [apply fuel_mono_find|]. intros rx.
  apply fuel_mono_bind; [apply fuel_mono_find|]. intros ry.
  apply fuel_mono_const.
Qed.

Lemma fuel_mono_connected x y : fuel_mono (λ f, connected f x y).
Proof.
  unfold connected. apply fuel_mono_bind; [apply fuel_mono_find|]. intros rx.
  apply fuel_mono_bind; [apply fuel_mono_find|]. intros ry.
  apply fuel_mono_const.
Qed.

Lemma fuel_mono_for_keys {A} (body : nat → K → A → M A) size todo pos acc :
  (∀ key a, fuel_mono (λ f, body f key a)) →
  fuel_mono (λ f, for_keys (body f) size todo pos acc).
Proof.
  intros Hbody. revert pos acc.
  induction todo as [|todo IH]; intros pos acc; cbn [for_keys].
  - apply fuel_mono_bind; [apply fuel_mono_const|].
    intros [key|]; apply fuel_mono_const.
  - apply fuel_mono_bind; [apply fuel_mono_const|].
    intros [key|]; [|apply fuel_mono_const].
    apply fuel_mono_bind; [apply Hbody|]. intros a. apply IH.
Qed.

Lemma fuel_mono_iter : fuel_mono iter.
Proof.
  intros f f' d a d'. unfold iter.
  apply (fuel_mono_for_keys
           (λ f key out, r <- find f key ;; ret (out ++ [(key, r)]))).
  intros key out. apply fuel_mono_bind; [apply fuel_mono_find|].
  intros r. apply fuel_mono_const.
Qed.

Lemma fuel_mono_itersets : fuel_mono itersets.
Proof.
  intros f f' d a d'. unfold itersets.
  apply (fuel_mono_bind
           (λ f, for_keys (λ element ec, r <- find f element ;;
                                         ret (classes_add ec r element))
                   (length d) (length d) 0 [])
           (λ _ ec, ret (ec.*2))).
  - apply (fuel_mono_for_keys
             (λ f element ec, r <- find f element ;;
                              ret (classes_add ec r element))).
    intros key out. apply fuel_mono_bind; [apply fuel_mono_find|].
    intros r. apply fuel_mono_const.
  - intros ec. apply fuel_mono_const.
Qed.

Lemma fuel_mono_exec o : fuel_mono (λ f, exec f o).
Proof.
  destruct o; cbn [exec].
  - apply fuel_mono_const.
  - apply fuel_mono_const.
  - apply fuel_mono_bind; [apply fuel_mono_find|]. intros; apply fuel_mono_const.
  - apply fuel_mono_bind; [apply fuel_mono_union|]. intros; apply fuel_mono_const.
  - apply fuel_mono_bind; [apply fuel_mono_connected|].
    intros; apply fuel_mono_const.
  - apply fuel_mono_bind; [apply fuel_mono_iter|]. intros; apply fuel_mono_const.
  - apply fuel_mono_bind; [apply fuel_mono_itersets|].
    intros; apply fuel_mono_const.
Qed.

Lemma fuel_mono_run os : fuel_mono (λ f, run f os).
Proof.
  induction os as [|o os IH]; cbn [run]; [apply fuel_mono_const|].
  apply fuel_mono_bind; [apply fuel_mono_exec|]. intros v.
  apply fuel_mono_bind; [apply IH|]. intros vs. apply fuel_mono_const.
Qed.

(** ** The loops over the keys *)

Lemma for_keys_unfold {A} (body : K → A → M A) size todo pos acc d :
  for_keys body size todo pos acc d =
  if decide (length d = size) then
    match keys d !! pos with
    | None => Ok (acc, d)
    | Some key =>
        match todo with
        | 0 => NoFuel
        | S todo' =>
            match body key acc d with
            | Ok (acc', d') => for_keys body size todo' (S pos) acc' d'
            | RuntimeError => RuntimeError
            | NoFuel => NoFuel
            end
        end
    end
  else RuntimeError.
Proof.
  rewrite keys_lookup.
  destruct todo; cbn [for_keys]; unfold bind at 1, dictiter_next;
    case_decide; try done; unfold dict in *;
    destruct (d !! pos) as [[key v]|]; reflexivity.
Qed.

Lemma rooted_tall n ρ d : rooted n ρ d → tall n d.
Proof. intros Hr k Hk. exists (ρ k). by apply Hr. Qed.

Lemma tall_rooted n d :
  tall n d → rooted n (λ k, default k (root_of n d k)) d.
Proof. intros Ht k Hk. by destruct (Ht k Hk) as [r ->]. Qed.

Lemma rooted_keeps n ρ d d' :
  rooted n ρ d → keys d' = keys d → keeps_roots d d' → rooted n ρ d'.
Proof. intros Hr Hk Hkeep k Hin. apply Hkeep, Hr. by rewrite <-Hk. Qed.

Lemma for_keys_find {A} (g : A → K → K → A) ρ n fuel size todo :
  ∀ pos acc d,
    rooted n ρ d → n ≤ fuel → length d = size → pos + todo = size →
    ∃ d', for_keys (λ key a, r <- find fuel key ;; ret (g a key r))
            size todo pos acc d
          = Ok (foldl (λ a k, g a k (ρ k)) acc (drop pos (keys d)), d') ∧
          keys d' = keys d ∧ keeps_roots d d'.
Proof.
  induction todo as [|todo IH]; intros pos acc d Hroot Hfuel Hsize Hpos;
    rewrite for_keys_unfold, decide_True by done.
  - rewrite lookup_ge_None_2, drop_ge by (rewrite length_keys; lia).
    exists d. split_and!; [done|done|apply keeps_roots_refl].
  - destruct (lookup_lt_is_Some_2 (keys d) pos) as [key Hkey];
      [rewrite length_keys; lia|].
    rewrite Hkey, (drop_S _ _ _ Hkey). cbn [foldl].
    assert (key ∈ keys d) as Hin by (by eapply list_elem_of_lookup_2).
    destruct (find_keeps_roots n fuel key d (ρ key))
      as (d1 & Hf & Hk1 & Hkeep1 & _); [|done|].
    { rewrite vivify_in by done. by apply Hroot. }
    rewrite vivify_in in Hk1 by done.
    unfold bind at 1. rewrite Hf. unfold ret at 1.
    destruct (IH (S pos) (g acc key (ρ key)) d1) as (d' & Hloop & Hk' & Hkeep');
      [by eapply rooted_keeps|done| |lia|].
    { by rewrite <-length_keys, Hk1, length_keys. }
    exists d'. rewrite Hloop, Hk1. split_and!; [done|congruence|].
    by eapply keeps_roots_trans.
Qed.

Lemma foldl_snoc_pairs (ρ : K → K) (l : list K) (acc : list (K * K)) :
  foldl (λ out k, out ++ [(k, ρ k)]) acc l = acc ++ ((λ k, (k, ρ k)) <$> l).
Proof.
  revert acc. induction l as [|k l IH]; intros acc; simpl.
  - by rewrite app_nil_r.
  - by rewrite IH, <-app_assoc.
Qed.

Lemma iter_spec ρ n fuel d :
  rooted n ρ d → n ≤ fuel →
  ∃ d', iter fuel d = Ok ((λ k, (k, ρ k)) <$> keys d, d') ∧
        keys d' = keys d ∧ keeps_roots d d'.
Proof.
  intros Hroot Hfuel. unfold iter.
  destruct (for_keys_find (λ out key r, out ++ [(key, r)]) ρ n fuel
              (length d) (length d) 0 [] d) as (d' & -> & Hk & Hkeep);
    [done..|].
  exists d'. split_and!; [|done..]. by rewrite drop_0, foldl_snoc_pairs.
Qed.

Lemma itersets_spec ρ n fuel d :
  rooted n ρ d → n ≤ fuel →
  ∃ d', itersets fuel d
        = Ok ((foldl (λ ec k, classes_add ec (ρ k) k) [] (keys d)).*2, d') ∧
        keys d' = keys d ∧ keeps_roots d d'.
Proof.
  intros Hroot Hfuel. unfold itersets, bind at 1.
  destruct (for_keys_find (λ ec key r, classes_add ec r key) ρ n fuel
              (length d) (length d) 0 [] d) as (d' & -> & Hk & Hkeep);
    [done..|].
  exists d'. by rewrite drop_0.
Qed.

Lemma connected_spec n fuel x y d :
  tall n d → n + 2 ≤ fuel →
  ∃ rx ry d',
    connected fuel x y d = Ok (bool_decide (rx = ry), d') ∧
    keys d' = keys (vivify y (vivify x d)) ∧
    keeps_roots d d' ∧ tall (n + 2) d' ∧
    reaches d' x rx ∧ reaches d' y ry ∧
    reaches (vivify y (vivify x d)) x rx ∧
    reaches (vivify y (vivify x d)) y ry.
Proof.
  intros Ht Hle.
  destruct (find_find_spec n fuel x y d Ht Hle)
    as (rx & ry & d1 & d2 & Hfx & Hfy & Hk & Hkeep & Ht2 & Hrx & Hry & Hx & Hy & Hx0 & Hy0).
  exists rx, ry, d2. rewrite connected_unfold, Hfx, Hfy.
  split_and!; [done..| | |done|done]; by eexists.
Qed.

(** ** Classes only grow *)

Lemma reaches_det d k r r' : reaches d k r → reaches d k r' → r = r'.
Proof. intros [n Hn] [m Hm]. by eapply root_of_det. Qed.

Lemma reaches_in_keys d k r : reaches d k r → k ∈ keys d.
Proof. intros [n Hn]. by eapply root_of_in_keys. Qed.

Lemma reaches_is_root d k r : reaches d k r → is_root d r.
Proof. intros [n Hn]. by eapply root_of_is_root. Qed.

Lemma keeps_roots_reaches d d' k r :
  keeps_roots d d' → reaches d k r → reaches d' k r.
Proof. intros Hkeep [n Hn]. exists n. by apply Hkeep. Qed.

Lemma same_sym d x y : same d x y → same d y x.
Proof. intros (r & ? & ?). by exists r. Qed.

Lemma same_trans d x y z : same d x y → same d y z → same d x z.
Proof.
  intros (r & Hx & Hy) (r' & Hy' & Hz).
  rewrite <-(reaches_det _ _ _ _ Hy Hy') in Hz. by exists r.
Qed.

Lemma same_keeps d d' x y : keeps_roots d d' → same d x y → same d' x y.
Proof. intros Hkeep (r & Hx & Hy). exists r. split; by eapply keeps_roots_reaches. Qed.

Lemma same_keeps_iff n d d' x y :
  tall n d → keys d' = keys d → keeps_roots d d' →
  same d x y ↔ same d' x y.
Proof.
  intros Ht Hk Hkeep. split; [by apply same_keeps|].
  intros (r & Hx & Hy).
  destruct (Ht x) as [rx Hrx]; [rewrite <-Hk; by eapply reaches_in_keys|].
  destruct (Ht y) as [ry Hry]; [rewrite <-Hk; by eapply reaches_in_keys|].
  assert (reaches d' x rx) as Hx' by (eexists; by apply Hkeep).
  assert (reaches d' y ry) as Hy' by (eexists; by apply Hkeep).
  rewrite <-(reaches_det _ _ _ _ Hx Hx') in Hrx.
  rewrite <-(reaches_det _ _ _ _ Hy Hy') in Hry.
  exists r. split; by eexists.
Qed.

Lemma evolves_refl d : evolves d d.
Proof. by split. Qed.

Lemma evolves_trans d1 d2 d3 : evolves d1 d2 → evolves d2 d3 → evolves d1 d3.
Proof. intros [Hk1 Hs1] [Hk2 Hs2]. split; [by etrans|eauto]. Qed.

Lemma keys_vivify_subseteq x d : keys d ⊆ keys (vivify x d).
Proof.
  rewrite keys_vivify. case_decide; [done|].
  intros k Hk. apply elem_of_app. by left.
Qed.

Lemma evolves_keeps d d' :
  keys d ⊆ keys d' → keeps_roots d d' → evolves d d'.
Proof. intros Hk Hkeep. split; [done|]. intros x y. by apply same_keeps. Qed.

(** ** Every call returns and keeps the invariant *)

Lemma exec_ok n fuel o d :
  NoDup (keys d) → tall n d → n + 2 ≤ fuel →
  ∃ v d', exec fuel o d = Ok (v, d') ∧
          NoDup (keys d') ∧ tall (n + 3) d' ∧ evolves d d'.
Proof.
  intros Hnd Ht Hle.
  assert (tall (n + 3) d) as Ht3 by (eapply tall_mono; [done|lia]).
  destruct o as [x| |x|x y|x y| |]; cbn [exec]; unfold bind at 1.
  - eexists _, d. split_and!; [done..|apply evolves_refl].
  - eexists _, d. split_and!; [done..|apply evolves_refl].
  - destruct (find_tall (S n) fuel x d)
      as (r & d' & -> & _ & Hk & Hkeep & Ht' & _); [by apply tall_vivify|lia|].
    eexists _, d'. split_and!; [done| | |].
    + rewrite Hk. by apply NoDup_keys_vivify.
    + eapply tall_mono; [done|lia].
    + apply evolves_keeps; [rewrite Hk; apply keys_vivify_subseteq|].
      eapply keeps_roots_trans; [apply keeps_roots_vivify|done].
  - destruct (union_spec n fuel x y d Ht Hle)
      as (rx & ry & d1 & d2 & d' & _ & _ & _ & -> & Hk & Ht' & Hlink & _).
    eexists _, d'. split_and!; [done| |done|].
    + rewrite Hk. by do 2 apply NoDup_keys_vivify.
    + split.
      * rewrite Hk. etrans; apply keys_vivify_subseteq.
      * intros a b (r & [na Ha] & [nb Hb]). exists (link_to rx ry r).
        split; eexists; by apply Hlink.
  - destruct (connected_spec n fuel x y d Ht Hle)
      as (rx & ry & d' & -> & Hk & Hkeep & Ht' & _).
    eexists _, d'. split_and!; [done| | |].
    + rewrite Hk. by do 2 apply NoDup_keys_vivify.
    + eapply tall_mono; [done|lia].
    + apply evolves_keeps; [|done]. rewrite Hk. etrans; apply keys_vivify_subseteq.
  - destruct (iter_spec _ n fuel d (tall_rooted _ _ Ht))
      as (d' & -> & Hk & Hkeep); [lia|].
    eexists _, d'. split_and!; [done| | |].
    + by rewrite Hk.
    + eapply tall_keeps; done.
    + apply evolves_keeps; [by rewrite Hk|done].
  - destruct (itersets_spec _ n fuel d (tall_rooted _ _ Ht))
      as (d' & -> & Hk & Hkeep); [lia|].
    eexists _, d'. split_and!; [done| | |].
    + by rewrite Hk.
    + eapply tall_keeps; done.
    + apply evolves_keeps; [by rewrite Hk|done].
Qed.

Lemma inv_init : inv init.
Proof.
  split; [apply NoDup_nil_2|]. exists 0. by intros k ?%elem_of_nil.
Qed.

Lemma inv_exec fuel o d v d' :
  inv d → exec fuel o d = Ok (v, d') → inv d' ∧ evolves d d'.
Proof.
  intros [Hnd [n Ht]] Hex.
  destruct (exec_ok n (fuel `max` (n + 2)) o d Hnd Ht)
    as (v1 & d1 & Hex1 & Hnd1 & Ht1 & Hev); [lia|].
  rewrite (fuel_mono_exec o _ _ _ _ _ Hex) in Hex1 by lia. simplify_eq.
  split; [|done]. split; [done|]. by eexists.
Qed.

Lemma reachable_inv d : reachable d → inv d.
Proof.
  induction 1 as [|fuel o d v d' _ IH Hex]; [apply inv_init|].
  by destruct (inv_exec _ _ _ _ _ IH Hex).
Qed.

Lemma run_ok os : ∀ n fuel d,
  NoDup (keys d) → tall n d → n + 3 * length os + 2 ≤ fuel →
  ∃ vs d', run fuel os d = Ok (vs, d') ∧
           NoDup (keys d') ∧ tall (n + 3 * length os) d' ∧ evolves d d'.
Proof.
  induction os as [|o os IH]; intros n fuel d Hnd Ht Hle; cbn [run length] in *.
  - exists [], d. split_and!; [done|done| |apply evolves_refl].
    eapply tall_mono; [done|lia].
  - destruct (exec_ok n fuel o d Hnd Ht) as (v & d1 & Hex & Hnd1 & Ht1 & Hev1);
      [lia|].
    destruct (IH (n + 3) fuel d1 Hnd1 Ht1) as (vs & d' & Hrun & Hnd' & Ht' & Hev');
      [lia|].
    exists (v :: vs), d'. unfold bind at 1. rewrite Hex.
    unfold bind at 1. rewrite Hrun. split_and!; [done|done| |].
    + eapply tall_mono; [done|lia].
    + by eapply evolves_trans.
Qed.

Lemma reachable_run fuel os : ∀ d vs d',
  reachable d → run fuel os d = Ok (vs, d') → reachable d'.
Proof.
  induction os as [|o os IH]; intros d vs d' Hd; cbn [run].
  - by intros [= _ <-].
  - unfold bind at 1. destruct (exec fuel o d) as [[v d1]| |] eqn:Hex; [|done..].
    unfold bind at 1. destruct (run fuel os d1) as [[vs1 d2]| |] eqn:Hrun; [|done..].
    intros [= _ <-]. eapply IH; [|done]. by eapply reachable_exec.
Qed.

(** Whatever [find] returns with some fuel is what the walk dictates. *)
Lemma find_Ok_inv n fuel x d r d' :
  tall n (vivify x d) → find fuel x d = Ok (r, d') →
  root_of n (vivify x d) x = Some r ∧ keys d' = keys (vivify x d) ∧
  keeps_roots (vivify x d) d' ∧ tall n d' ∧ is_root d' r.
Proof.
  intros Ht Hf.
  destruct (find_tall n (fuel `max` n) x d Ht) as (r1 & d1 & Hf1 & Hrest); [lia|].
  rewrite (find_fuel_mono _ _ _ _ _ _ Hf) in Hf1 by lia. by simplify_eq.
Qed.

Lemma for_keys_find_no_error {A} (g : A → K → K → A) ρ n fuel size todo :
  ∀ pos acc d,
    rooted n ρ d → length d = size →
    for_keys (λ key a, r <- find fuel key ;; ret (g a key r))
      size todo pos acc d ≠ RuntimeError.
Proof.
  induction todo as [|todo IH]; intros pos acc d Hroot Hsize;
    rewrite for_keys_unfold, decide_True by done;
    destruct (keys d !! pos) as [key|] eqn:Hkey; try done.
  assert (key ∈ keys d) as Hin by (by eapply list_elem_of_lookup_2).
  unfold bind at 1.
  destruct (find fuel key d) as [[r d1]| |] eqn:Hf; [|by apply find_not_RuntimeError in Hf|done].
  unfold ret at 1.
  apply (find_Ok_inv n) in Hf as (_ & Hk & Hkeep & _);
    [|rewrite vivify_in by done; by eapply rooted_tall].
  rewrite vivify_in in Hk, Hkeep by done.
  apply IH; [by eapply rooted_keeps|].
  by rewrite <-length_keys, Hk, length_keys.
Qed.

(** ** Grouping the keys by root *)

Lemma get_Some_elem_of {V} (d : list (K * V)) k v :
  get d k = Some v → (k, v) ∈ d.
Proof.
  induction d as [|[a b] d IH]; simpl; [done|].
  case_decide; simplify_eq.
  - intros [= ->]. by left.
  - intros Hg. right. by apply IH.
Qed.

Lemma get_lookup_NoDup {V} (d : list (K * V)) i k v :
  NoDup (keys d) → d !! i = Some (k, v) → get d k = Some v.
Proof.
  unfold keys. revert i. induction d as [|[a b] d IH]; intros i; [done|].
  rewrite fmap_cons, NoDup_cons. intros [Hnotin Hnd].
  destruct i as [|i]; simpl.
  - intros [= -> ->]. by rewrite decide_True.
  - intros Hi. rewrite decide_False; [by eapply IH|].
    intros ->. apply Hnotin. apply list_elem_of_fmap. exists (a, v).
    split; [done|]. by eapply list_elem_of_lookup_2.
Qed.

Lemma grouped_nil ρ : grouped ρ [] [].
Proof.
  split_and!; [apply NoDup_nil_2| |].
  - intros r k. simpl. split; [by intros ?%not_elem_of_empty|].
    by intros [?%elem_of_nil _].
  - intros r [? ?]. done.
Qed.

Lemma grouped_add ρ l ec k0 :
  grouped ρ l ec → grouped ρ (l ++ [k0]) (classes_add ec (ρ k0) k0).
Proof.
  intros (Hnd & Hmem & Hne). unfold classes_add. split_and!.
  - by apply NoDup_keys_put.
  - intros r k. rewrite get_put, elem_of_app, list_elem_of_singleton.
    case_decide as Hr; simpl.
    + subst r. rewrite elem_of_union, elem_of_singleton, Hmem.
      intuition congruence.
    + rewrite Hmem. intuition congruence.
  - intros r. rewrite get_put. case_decide as Hr.
    + intros _. exists k0. rewrite elem_of_app, list_elem_of_singleton. auto.
    + intros (k & Hk & Hρ)%Hne. exists k. rewrite elem_of_app. auto.
Qed.

Lemma grouped_foldl ρ l : ∀ l0 ec,
  grouped ρ l0 ec →
  grouped ρ (l0 ++ l) (foldl (λ ec k, classes_add ec (ρ k) k) ec l).
Proof.
  induction l as [|k l IH]; intros l0 ec Hg; simpl.
  - by rewrite app_nil_r.
  - change (k :: l) with ([k] ++ l). rewrite (assoc_L (++)).
    by apply IH, grouped_add.
Qed.

Lemma grouped_group ρ l : grouped ρ l (group ρ l).
Proof. apply (grouped_foldl ρ l [] []), grouped_nil. Qed.

(** The values of a grouping partition the grouped list. *)
Lemma grouped_partition ρ l ec :
  grouped ρ l ec →
  (∀ i j A B, i ≠ j → ec.*2 !! i = Some A → ec.*2 !! j = Some B → A ## B) ∧
  (∀ A, A ∈ ec.*2 → A ≠ ∅) ∧
  ⋃ (ec.*2) = list_to_set l.
Proof.
  intros (Hnd & Hmem & Hne).
  assert (∀ i A, ec.*2 !! i = Some A →
                 ∃ r, keys ec !! i = Some r ∧ get ec r = Some A) as Hidx.
  { intros i A. unfold keys, classes in *. rewrite !list_lookup_fmap.
    destruct (ec !! i) as [[r A']|] eqn:Hi; [|done]. intros [= <-].
    exists r. split; [done|]. by eapply get_lookup_NoDup. }
  split_and!.
  - intros i j A B Hij (r1 & Hi & HA)%Hidx (r2 & Hj & HB)%Hidx.
    assert (r1 ≠ r2) as Hr.
    { intros ->. apply Hij. by eapply NoDup_lookup. }
    apply elem_of_disjoint. intros k HkA HkB.
    pose proof (Hmem r1 k) as H1. pose proof (Hmem r2 k) as H2.
    rewrite HA in H1. rewrite HB in H2. simpl in *.
    apply H1 in HkA as [_ ?]. apply H2 in HkB as [_ ?]. congruence.
  - intros A (i & Hi)%list_elem_of_lookup_1.
    apply Hidx in Hi as (r & _ & HA).
    destruct (Hne r) as (k & Hk & Hρ); [by eexists|].
    pose proof (Hmem r k) as H1. rewrite HA in H1. simpl in H1.
    intros ->. apply (not_elem_of_empty (C:=gset K) k), H1. done.
  - apply set_eq. intros k. rewrite elem_of_union_list, elem_of_list_to_set.
    split.
    + intros (A & (i & Hi)%list_elem_of_lookup_1 & HkA).
      apply Hidx in Hi as (r & _ & HA).
      pose proof (Hmem r k) as H1. rewrite HA in H1. by apply H1 in HkA as [? _].
    + intros Hk. pose proof (Hmem (ρ k) k) as H1.
      destruct (get ec (ρ k)) as [A|] eqn:HA; simpl in H1.
      * exists A. split; [|by apply H1].
        apply list_elem_of_fmap. exists (ρ k, A).
        split; [done|]. by apply get_Some_elem_of.
      * exfalso. apply (not_elem_of_empty (C:=gset K) k), H1. done.
Qed.

(** ** Auxiliary facts for the main theorems *)

Lemma get_vivify_match x d k :
  get (vivify x d) k =
  match get d k with
  | Some v => Some v
  | None => if decide (k = x) then Some k else None
  end.
Proof.
  unfold vivify. destruct (get d x) as [vx|] eqn:Hx.
  - destruct (get d k) as [v|] eqn:Hk; [done|].
    case_decide; [congruence|done].
  - rewrite get_put. case_decide; [subst; by rewrite Hx|].
    by destruct (get d k).
Qed.

Lemma get_vivify_comm x y d k :
  get (vivify y (vivify x d)) k = get (vivify x (vivify y d)) k.
Proof.
  rewrite !get_vivify_match. destruct (get d k); [done|].
  repeat case_decide; congruence.
Qed.

Lemma root_of_ext n d d' k :
  (∀ k, get d k = get d' k) → root_of n d k = root_of n d' k.
Proof.
  intros Hext. revert k. induction n as [|n IH]; intros k; simpl; [done|].
  rewrite Hext. destruct (get d' k); [|done]. by case_decide.
Qed.

Lemma reaches_vivify_comm x y d k r :
  reaches (vivify y (vivify x d)) k r → reaches (vivify x (vivify y d)) k r.
Proof.
  intros [n Hn]. exists n. rewrite <-Hn. apply root_of_ext.
  intros k'. apply get_vivify_comm.
Qed.

Lemma connected_same n fuel x y d :
  tall n d → n + 2 ≤ fuel → same d x y →
  ∃ d', connected fuel x y d = Ok (true, d').
Proof.
  intros Ht Hle (r & Hx & Hy).
  destruct (connected_spec n fuel x y d Ht Hle)
    as (rx & ry & d' & Hc & _ & Hkeep & _ & Hx' & Hy' & _).
  exists d'. rewrite Hc, bool_decide_eq_true_2; [done|].
  apply (keeps_roots_reaches _ _ _ _ Hkeep) in Hx, Hy.
  rewrite <-(reaches_det _ _ _ _ Hx Hx'). by eapply reaches_det.
Qed.

Lemma tall_forest n d : tall n d → forest d.
Proof.
  intros Ht k Hk. destruct (Ht k Hk) as [r Hr]. split.
  - exists r. split_and!; [by eexists|by eapply root_of_is_root|].
    intros r' Hr'. eapply reaches_det; [done|by eexists].
  - intros m Hm Ha. by eapply root_of_acyclic.
Qed.

Lemma forest_tall d : forest d → ∃ n, tall n d.
Proof.
  intros Hf. unfold tall.
  assert (∀ l : list K, (∀ k, k ∈ l → k ∈ keys d) →
               ∃ n, ∀ k, k ∈ l → is_Some (root_of n d k)) as Hl.
  { induction l as [|k0 l IH]; intros Hsub.
    - exists 0. by intros k ?%elem_of_nil.
    - destruct IH as [n Hn]; [intros k Hk; apply Hsub; by right|].
      destruct (Hf k0) as [(r & [m Hr] & _) _]; [apply Hsub; by left|].
      exists (n `max` m). intros k [->|Hk]%elem_of_cons.
      + exists r. eapply root_of_mono; [done|lia].
      + destruct (Hn k Hk) as [r' Hr']. exists r'.
        eapply root_of_mono; [done|lia]. }
  by apply Hl.
Qed.

Lemma inv_forest d : inv d ↔ NoDup (keys d) ∧ forest d.
Proof.
  split.
  - intros [Hnd [n Ht]]. split; [done|]. by eapply tall_forest.
  - intros [Hnd Hf]. split; [done|]. by apply forest_tall.
Qed.

(** ** The properties of the specification *)

(** Enough fuel: [union] returns and [connected] is [True] after any
    further calls. *)
Lemma union_then_connected_ok (d : dict) (x y : K) :
  reachable d →
  ∃ N, ∀ fuel, N ≤ fuel →
    ∃ d1, union fuel x y d = Ok (tt, d1) ∧
      ∀ os, ∃ M, ∀ fuel', M ≤ fuel' →
        ∃ vs d2 d3, run fuel' os d1 = Ok (vs, d2) ∧
                    connected fuel' x y d2 = Ok (true, d3).
Proof.
  intros [Hnd [n Ht]]%reachable_inv. exists (n + 2). intros fuel Hfuel.
  destruct (union_spec n fuel x y d Ht Hfuel)
    as (rx & ry & da & db & d1 & _ & _ & _ & Hu & Hk & Ht1 & _ & Hx & Hy & _).
  exists d1. split; [done|]. intros os.
  exists (n + 3 + 3 * length os + 2). intros fuel' Hfuel'.
  assert (NoDup (keys d1)) as Hnd1.
  { rewrite Hk. by do 2 apply NoDup_keys_vivify. }
  destruct (run_ok os (n + 3) fuel' d1 Hnd1 Ht1 Hfuel')
    as (vs & d2 & Hrun & Hnd2 & Ht2 & [_ Hsame]).
  destruct (connected_same _ fuel' x y d2 Ht2) as [d3 Hc]; [lia| |].
  { apply Hsame. exists ry. split; by eexists. }
  by exists vs, d2, d3.
Qed.

(** C1: after [union(x, y)] the call [connected(x, y)] returns [True], and
    it still returns [True] after any further sequence of calls (find,
    union, connected, membership, truth test, enumeration) on any elements:
    the calls return when the recursion may go deep enough, and whenever
    they return, with whatever depth, the answer is [True]. *)
Theorem union_then_connected_forever (d : dict) (x y : K) :
  reachable d →
  ∃ N, ∀ fuel, N ≤ fuel →
    ∃ d1, union fuel x y d = Ok (tt, d1) ∧
      (∀ os, ∃ M, ∀ fuel', M ≤ fuel' →
         ∃ vs d2 d3, run fuel' os d1 = Ok (vs, d2) ∧
                     connected fuel' x y d2 = Ok (true, d3)) ∧
      (∀ os f1 f2 vs d2 b d3,
         run f1 os d1 = Ok (vs, d2) → connected f2 x y d2 = Ok (b, d3) →
         b = true).
Proof.
  intros Hd. destruct (union_then_connected_ok d x y Hd) as [N HN].
  exists N. intros fuel Hfuel. destruct (HN fuel Hfuel) as (d1 & Hu & Hos).
  exists d1. split_and!; [done..|].
  intros os f1 f2 vs d2 b d3 Hrun Hc. destruct (Hos os) as [M HM].
  destruct (HM ((M `max` f1) `max` f2)) as (vs' & d2' & d3' & Hrun' & Hc'); [lia|].
  rewrite (fuel_mono_run os _ _ _ _ _ Hrun) in Hrun' by lia. simplify_eq.
  rewrite (fuel_mono_connected x y _ _ _ _ _ Hc) in Hc' by lia.
  by simplify_eq.
Qed.

(** C3: the state invariant.  In the initial state and after every call
    that starts from a state satisfying it, following parent links from any
    key ends at exactly one root, and a key lies on no cycle unless it is a
    root pointing to itself.  Every call returns. *)
Theorem forest_invariant :
  (NoDup (keys init) ∧ forest init) ∧
  ∀ (o : op) (d : dict),
    NoDup (keys d) → forest d →
    (∃ N, ∀ fuel, N ≤ fuel → ∃ v d', exec fuel o d = Ok (v, d')) ∧
    (∀ fuel v d', exec fuel o d = Ok (v, d') → NoDup (keys d') ∧ forest d').
Proof.
  split; [apply inv_forest, inv_init|]. intros o d Hnd Hf.
  assert (inv d) as Hinv by (by apply inv_forest).
  destruct Hinv as [_ [n Ht]]. split.
  - exists (n + 2). intros fuel Hfuel.
    destruct (exec_ok n fuel o d Hnd Ht Hfuel) as (v & d' & Hex & _).
    by exists v, d'.
  - intros fuel v d' Hex. apply inv_forest.
    eapply inv_exec; [|done]. by apply inv_forest.
Qed.

(** C6: in every reachable state [find(x)] terminates, for every [x]: a
    recursion depth exists from which on the call returns. *)
Theorem find_terminates (d : dict) (x : K) :
  reachable d →
  ∃ N, ∀ fuel, N ≤ fuel → ∃ r d', find fuel x d = Ok (r, d').
Proof.
  intros [_ [n Ht]]%reachable_inv. exists (S n). intros fuel Hfuel.
  destruct (find_tall (S n) fuel x d) as (r & d' & Hf & _);
    [by apply tall_vivify|done|].
  by exists r, d'.
Qed.

(** C5: [find(x)] compresses the whole path.  The value returned is the
    root [r] that the parent links lead to from [x] in the state before the
    call (with [x] entered as its own parent when it was unseen); afterwards
    [r] is a root, every node of the path from [x] to [r] has [r] as its
    parent, and nothing else has changed. *)
Theorem find_compresses_path (d : dict) (x : K) :
  reachable d →
  (x ∈ keys d → vivify x d = d) ∧
  ∃ n r,
    root_of n (vivify x d) x = Some r ∧
    x ∈ path_of n (vivify x d) x ∧ r ∈ path_of n (vivify x d) x ∧
    ∀ fuel, n ≤ fuel →
      ∃ d', find fuel x d = Ok (r, d') ∧
            is_root d' r ∧
            (∀ k, k ∈ path_of n (vivify x d) x → get d' k = Some r) ∧
            (∀ k, k ∉ path_of n (vivify x d) x →
                  get d' k = get (vivify x d) k) ∧
            keys d' = keys (vivify x d).
Proof.
  intros [_ [n Ht]]%reachable_inv. split; [apply vivify_in|].
  destruct (tall_vivify n x d Ht x (elem_of_keys_vivify x d)) as [r Hr].
  exists (S n), r.
  split_and!; [done|by eapply path_of_start|by eapply path_of_end|].
  intros fuel Hfuel.
  destruct (find_spec _ _ _ _ _ Hr Hfuel) as (d' & Hf & Hk & Hg).
  exists d'. split_and!; [done| | | |done].
  - unfold is_root. rewrite Hg, decide_True; [done|]. by eapply path_of_end.
  - intros k Hk'. by rewrite Hg, decide_True.
  - intros k Hk'. by rewrite Hg, decide_False.
Qed.

(** Enough fuel: both orders return, with one boolean. *)
Lemma connected_symmetric_ok (d : dict) (x y : K) :
  reachable d →
  ∃ N, ∀ fuel, N ≤ fuel →
    ∃ b d1 d2, connected fuel x y d = Ok (b, d1) ∧
               connected fuel y x d = Ok (b, d2).
Proof.
  intros [_ [n Ht]]%reachable_inv. exists (n + 2). intros fuel Hfuel.
  destruct (connected_spec n fuel x y d Ht Hfuel)
    as (rx & ry & d1 & Hc1 & _ & _ & _ & _ & _ & Hx & Hy).
  destruct (connected_spec n fuel y x d Ht Hfuel)
    as (ry' & rx' & d2 & Hc2 & _ & _ & _ & _ & _ & Hy' & Hx').
  apply reaches_vivify_comm in Hx, Hy.
  rewrite (reaches_det _ _ _ _ Hx Hx'), (reaches_det _ _ _ _ Hy Hy') in Hc1.
  exists (bool_decide (rx' = ry')), d1, d2. split; [done|].
  rewrite Hc2. do 2 f_equal. by apply bool_decide_ext.
Qed.

(** C7: [connected] is symmetric: from one and the same state,
    [connected(x, y)] and [connected(y, x)] return, and they return the
    same boolean. *)
Theorem connected_symmetric (d : dict) (x y : K) :
  reachable d →
  (∃ N, ∀ fuel, N ≤ fuel →
     ∃ b d1 d2, connected fuel x y d = Ok (b, d1) ∧
                connected fuel y x d = Ok (b, d2)) ∧
  (∀ f1 f2 b1 b2 d1 d2,
     connected f1 x y d = Ok (b1, d1) → connected f2 y x d = Ok (b2, d2) →
     b1 = b2).
Proof.
  intros Hd. pose proof (connected_symmetric_ok d x y Hd) as [N HN].
  split; [by exists N|].
  intros f1 f2 b1 b2 d1 d2 H1 H2.
  destruct (HN ((N `max` f1) `max` f2)) as (b & e1 & e2 & He1 & He2); [lia|].
  rewrite (fuel_mono_connected x y _ _ _ _ _ H1) in He1 by lia.
  rewrite (fuel_mono_connected y x _ _ _ _ _ H2) in He2 by lia.
  congruence.
Qed.

(** What [union] does when the two roots differ. *)
Lemma union_links_roots (d : dict) (x y : K) fuel rx ry d1 d2 :
  reachable d →
  find fuel x d = Ok (rx, d1) → find fuel y d1 = Ok (ry, d2) → rx ≠ ry →
  union fuel x y d = Ok (tt, put d2 rx ry) ∧
  get (put d2 rx ry) rx = Some ry ∧
  is_root (put d2 rx ry) ry ∧
  (∀ k, reaches d2 k rx ∨ reaches d2 k ry → reaches (put d2 rx ry) k ry) ∧
  (∀ k r, reaches d2 k r → r ≠ rx → reaches (put d2 rx ry) k r) ∧
  ∃ N, ∀ fuel', N ≤ fuel' →
    ∃ d3 d4, find fuel' x (put d2 rx ry) = Ok (ry, d3) ∧
             find fuel' y (put d2 rx ry) = Ok (ry, d4).
Proof.
  intros [_ [n Ht]]%reachable_inv Hfx Hfy Hne.
  apply (find_Ok_inv (S n)) in Hfx as Hx; [|by apply tall_vivify].
  destruct Hx as (Hrx & Hk1 & Hkeep1 & Ht1 & Hroot1).
  apply (find_Ok_inv (S (S n))) in Hfy as Hy; [|by apply tall_vivify].
  destruct Hy as (Hry & Hk2 & Hkeep2 & Ht2 & Hroot2).
  assert (keeps_roots d1 d2) as Hkeep12.
  { eapply keeps_roots_trans; [apply keeps_roots_vivify | done]. }
  assert (is_root d2 rx) as Hroot.
  { apply (root_of_is_root 1 d2 rx), Hkeep12. by apply root_of_root. }
  assert (∀ k r, reaches d2 k r →
                 reaches (put d2 rx ry) k (link_to rx ry r)) as Hlink.
  { intros k r [m Hm]. exists (S m). by apply link_roots. }
  assert (reaches (put d2 rx ry) x ry) as [mx Hx].
  { replace ry with (link_to rx ry rx) at 2
      by (unfold link_to; by rewrite decide_True).
    apply Hlink. exists (S n). by apply Hkeep12, Hkeep1. }
  assert (reaches (put d2 rx ry) y ry) as [my Hy].
  { replace ry with (link_to rx ry ry) at 2
      by (unfold link_to; rewrite decide_False; congruence).
    apply Hlink. eexists. by apply Hkeep2. }
  split_and!.
  - rewrite union_unfold, Hfx, Hfy. by rewrite decide_True.
  - apply get_put_eq.
  - unfold is_root. by rewrite get_put_ne by congruence.
  - intros k [Hk|Hk]; apply Hlink in Hk; revert Hk; unfold link_to.
    + by rewrite decide_True.
    + by rewrite decide_False by congruence.
  - intros k r Hk Hr. apply Hlink in Hk. revert Hk. unfold link_to.
    by rewrite decide_False.
  - pose proof (tall_link _ _ _ _ Ht2 Hroot Hroot2 Hne) as Ht3.
    exists (S (S (S n))). intros fuel' Hfuel'.
    destruct (find_tall (S (S (S n))) fuel' x (put d2 rx ry))
      as (r3 & d3 & Hf3 & Hr3 & _);
      [rewrite vivify_in; [done|by eapply root_of_in_keys] | done |].
    destruct (find_tall (S (S (S n))) fuel' y (put d2 rx ry))
      as (r4 & d4 & Hf4 & Hr4 & _);
      [rewrite vivify_in; [done|by eapply root_of_in_keys] | done |].
    rewrite vivify_in in Hr3, Hr4 by (by eapply root_of_in_keys).
    rewrite (root_of_det _ _ _ _ _ _ Hr3 Hx) in Hf3.
    rewrite (root_of_det _ _ _ _ _ _ Hr4 Hy) in Hf4.
    by exists d3, d4.
Qed.

Lemma contains_spec (d : dict) (x : K) :
  contains x d = Ok (bool_decide (x ∈ keys d), d).
Proof.
  unfold contains. do 2 f_equal. apply bool_decide_ext, get_is_Some.
Qed.

Lemma bool_spec (d : dict) :
  bool_ d = Ok (negb (bool_decide (keys d = [])), d).
Proof. by destruct d. Qed.

(** C4: in every reachable state the sets yielded by [itersets] are
    pairwise disjoint, none is empty, and together they make up exactly the
    key set of [_data], which the enumeration leaves as it was. *)
Theorem itersets_partition (d : dict) :
  reachable d →
  ∃ N, ∀ fuel, N ≤ fuel →
    ∃ sets d', itersets fuel d = Ok (sets, d') ∧
      (∀ i j A B, i ≠ j → sets !! i = Some A → sets !! j = Some B → A ## B) ∧
      (∀ A, A ∈ sets → A ≠ ∅) ∧
      ⋃ sets = list_to_set (keys d) ∧
      keys d' = keys d.
Proof.
  intros [_ [n Ht]]%reachable_inv. exists n. intros fuel Hfuel.
  destruct (itersets_spec _ n fuel d (tall_rooted _ _ Ht) Hfuel)
    as (d' & Hit & Hk & _).
  eexists _, d'. split; [exact Hit|].
  destruct (grouped_partition _ _ _
              (grouped_group (λ k, default k (root_of n d k)) (keys d)))
    as (Hdisj & Hne & Hcover).
  by split_and!.
Qed.

(** C8: [union] is idempotent on the partition.  A second [union(x, y)]
    right after the first leaves the key set and the classes as they are,
    and [itersets] yields the same sets in the same order after one call as
    after two. *)
Theorem union_idempotent (d : dict) (x y : K) :
  reachable d →
  ∃ N, ∀ fuel, N ≤ fuel →
    ∃ d1 d2, union fuel x y d = Ok (tt, d1) ∧
             union fuel x y d1 = Ok (tt, d2) ∧
             keys d2 = keys d1 ∧
             (∀ a b, same d1 a b ↔ same d2 a b) ∧
             ∃ sets e1 e2, itersets fuel d1 = Ok (sets, e1) ∧
                           itersets fuel d2 = Ok (sets, e2).
Proof.
  intros [_ [n Ht]]%reachable_inv. exists (n + 5). intros fuel Hfuel.
  destruct (union_spec n fuel x y d Ht)
    as (rx & ry & da & db & d1 & _ & _ & _ & Hu1 & _ & Ht1 & _ & Hx & Hy & _);
    [lia|].
  assert (x ∈ keys d1) as Hxin by (by eapply root_of_in_keys).
  assert (y ∈ keys d1) as Hyin by (by eapply root_of_in_keys).
  destruct (union_spec (n + 3) fuel x y d1 Ht1)
    as (rx' & ry' & dc & d2' & d2 & _ & _ & Hd2 & Hu2 & _ & _ & _ & _ & _
        & Hk2 & Hkeep & _ & _ & _ & Hx' & Hy'); [lia|].
  rewrite !vivify_in in Hk2, Hx', Hy' by (by rewrite ?vivify_in).
  assert (rx' = ry) as -> by (eapply reaches_det; [done|by eexists]).
  assert (ry' = ry) as -> by (eapply reaches_det; [done|by eexists]).
  rewrite decide_False in Hd2 by (by intros ?). subst d2'.
  exists d1, d2. split_and!; [done|done|done| |].
  - intros a b. by eapply same_keeps_iff.
  - pose proof (tall_rooted _ _ Ht1) as Hroot1.
    pose proof (rooted_keeps _ _ _ _ Hroot1 Hk2 Hkeep) as Hroot2.
    destruct (itersets_spec _ _ fuel d1 Hroot1) as (e1 & He1 & _); [lia|].
    destruct (itersets_spec _ _ fuel d2 Hroot2) as (e2 & He2 & _); [lia|].
    rewrite Hk2 in He2. by eexists _, e1, e2.
Qed.

(** C10: [find] on an element that is already a key neither adds nor
    removes a key and keeps the order of the keys.  So the loops of
    [__iter__] and [itersets] never meet a dictionary whose size changed:
    they never raise [RuntimeError], they return, and the keys are the same
    at the end. *)
Theorem find_known_keeps_keys (d : dict) :
  reachable d →
  (∀ x fuel r d', x ∈ keys d → find fuel x d = Ok (r, d') → keys d' = keys d) ∧
  (∀ fuel, iter fuel d ≠ RuntimeError ∧ itersets fuel d ≠ RuntimeError) ∧
  (∀ fuel l d', iter fuel d = Ok (l, d') → keys d' = keys d) ∧
  (∀ fuel l d', itersets fuel d = Ok (l, d') → keys d' = keys d) ∧
  ∃ N, ∀ fuel, N ≤ fuel →
    (∃ l d', iter fuel d = Ok (l, d')) ∧
    (∃ l d', itersets fuel d = Ok (l, d')).
Proof.
  intros [_ [n Ht]]%reachable_inv.
  pose proof (tall_rooted _ _ Ht) as Hroot.
  assert (∀ fuel, ∃ l1 d1 l2 d2,
            iter (fuel `max` n) d = Ok (l1, d1) ∧ keys d1 = keys d ∧
            itersets (fuel `max` n) d = Ok (l2, d2) ∧ keys d2 = keys d)
    as Hbig.
  { intros fuel.
    destruct (iter_spec _ n (fuel `max` n) d Hroot) as (d1 & ? & ? & _); [lia|].
    destruct (itersets_spec _ n (fuel `max` n) d Hroot) as (d2 & ? & ? & _);
      [lia|].
    by eexists _, d1, _, d2. }
  split_and!.
  - intros x fuel r d' Hx Hf.
    apply (find_Ok_inv n) in Hf as (_ & Hk & _); rewrite vivify_in in * by done;
      done.
  - intros fuel. split.
    + unfold iter. by eapply for_keys_find_no_error.
    + unfold itersets, bind.
      destruct (for_keys _ _ _ _ _ d) as [[ec d']| |] eqn:Hloop; [done| |done].
      by eapply (for_keys_find_no_error (λ ec key r, classes_add ec r key))
        in Hloop.
  - intros fuel l d' Hit. destruct (Hbig fuel) as (l1 & d1 & _ & _ & Hit1 & Hk1 & _).
    rewrite (fuel_mono_iter _ _ _ _ _ Hit) in Hit1 by lia. by simplify_eq.
  - intros fuel l d' Hit. destruct (Hbig fuel) as (_ & _ & l2 & d2 & _ & _ & Hit2 & Hk2).
    rewrite (fuel_mono_itersets _ _ _ _ _ Hit) in Hit2 by lia. by simplify_eq.
  - exists n. intros fuel Hfuel. destruct (Hbig fuel) as (l1 & d1 & l2 & d2 & Hit1 & _ & Hit2 & _).
    replace (fuel `max` n) with fuel in * by lia. split; by eexists _, _.
Qed.

(** ** Further properties of the methods *)

Lemma put_notin {V} (d : list (K * V)) k (v : V) :
  k ∉ keys d → put d k v = d ++ [(k, v)].
Proof.
  unfold keys. induction d as [|[a b] d IH]; simpl; [done|].
  intros [? ?]%not_elem_of_cons. rewrite decide_False by done.
  f_equal. by apply IH.
Qed.

Lemma put_same {V} (d : list (K * V)) k (v : V) :
  get d k = Some v → put d k v = d.
Proof.
  induction d as [|[a b] d IH]; simpl; [done|].
  case_decide; simplify_eq; [by intros [= ->]|].
  intros Hg. f_equal. by apply IH.
Qed.

(** After [find(x)] has returned [r], both [x] and [r] have parent [r];
    this needs no assumption on the dictionary. *)
Lemma find_result_gets fuel x d r d' :
  find fuel x d = Ok (r, d') → get d' x = Some r ∧ get d' r = Some r.
Proof.
  revert x d r d'. induction fuel as [|fuel IH]; intros x d r d'; [done|].
  rewrite find_unfold. cbn zeta. case_decide as Hv.
  - destruct (find fuel _ _) as [[r1 d1]| |] eqn:Hrec; [|done..].
    intros [= <- <-]. split; [apply get_put_eq|].
    rewrite get_put. case_decide; [congruence|]. by apply IH in Hrec as [_ ?].
  - intros [= <- <-]. rewrite <-Hv, get_vivify_self, <-Hv. done.
Qed.

Lemma find_again fuel x d r :
  get d x = Some r → get d r = Some r → 2 ≤ fuel →
  find fuel x d = Ok (r, d).
Proof.
  intros Hx Hr Hfuel. destruct fuel as [|[|fuel]]; [lia..|].
  assert (find (S fuel) r d = Ok (r, d)) as Hroot.
  { rewrite find_unfold. unfold vivify. rewrite Hr. cbn.
    by rewrite decide_False by (by intros ?). }
  destruct (decide (r = x)) as [->|Hne].
  - by apply (find_fuel_mono (S fuel)); [|lia].
  - rewrite (find_unfold_link _ _ _ _ Hx Hne), Hroot. by rewrite put_same.
Qed.

(** X1: [find] on an element that is no key yet returns the element itself
    and appends it to [_data] as its own parent; nothing else changes. *)
Theorem find_unseen (d : dict) (x : K) (fuel : nat) :
  x ∉ keys d → 1 ≤ fuel → find fuel x d = Ok (x, d ++ [(x, x)]).
Proof.
  intros Hx Hfuel. destruct fuel as [|fuel]; [lia|].
  rewrite find_unfold. cbn zeta. apply get_None in Hx as Hg.
  unfold vivify. rewrite Hg. cbn. rewrite decide_False by (by intros ?).
  by rewrite put_notin.
Qed.

(** X2: [find] is stable.  Once [find(x)] has returned [r], calling
    [find(x)] or [find(r)] again returns [r] and leaves the dictionary
    exactly as it is. *)
Theorem find_stable (d : dict) (x : K) (fuel : nat) (r : K) (d' : dict) :
  find fuel x d = Ok (r, d') →
  ∀ fuel', 2 ≤ fuel' →
    find fuel' x d' = Ok (r, d') ∧ find fuel' r d' = Ok (r, d').
Proof.
  intros [Hx Hr]%find_result_gets fuel' Hfuel'. split; by apply find_again.
Qed.

(** What [connected] answers, read in the state it leaves. *)
Lemma connected_Ok_inv fuel x y d b d' :
  inv d → connected fuel x y d = Ok (b, d') →
  inv d' ∧ keeps_roots d d' ∧
  (b = true ↔ same d' x y) ∧
  (b = true ↔ same (vivify y (vivify x d)) x y) ∧
  keys d' = keys (vivify y (vivify x d)).
Proof.
  intros [Hnd [n Ht]] Hc.
  destruct (connected_spec n (fuel `max` (n + 2)) x y d Ht)
    as (rx & ry & d1 & Hc1 & Hk & Hkeep & Ht1 & Hx & Hy & Hx0 & Hy0); [lia|].
  rewrite (fuel_mono_connected x y _ _ _ _ _ Hc) in Hc1 by lia. simplify_eq.
  split_and!; [|done| | |done].
  - split; [|by eexists]. rewrite Hk. by do 2 apply NoDup_keys_vivify.
  - rewrite bool_decide_eq_true. split.
    + intros ->. by exists ry.
    + intros (r & Hx' & Hy').
      rewrite (reaches_det _ _ _ _ Hx Hx'). by eapply reaches_det.
  - rewrite bool_decide_eq_true. split.
    + intros ->. by exists ry.
    + intros (r & Hx' & Hy').
      rewrite (reaches_det _ _ _ _ Hx0 Hx'). by eapply reaches_det.
Qed.

Lemma connected_returns n fuel x y d :
  tall n d → n + 2 ≤ fuel → ∃ b d', connected fuel x y d = Ok (b, d').
Proof.
  intros Ht Hfuel.
  destruct (connected_spec n fuel x y d Ht Hfuel) as (rx & ry & d' & Hc & _).
  by eexists _, d'.
Qed.

(** X3: [connected(x, y)] decides whether [x] and [y] are in one class.  In a
    reachable state it returns, and it returns [True] exactly when the
    walks from [x] and from [y] end in one root, both in the state before
    the call (with unseen arguments entered as their own parents) and in
    the state after it. *)
Theorem connected_decides_same (d : dict) (x y : K) :
  reachable d →
  (∃ N, ∀ fuel, N ≤ fuel → ∃ b d', connected fuel x y d = Ok (b, d')) ∧
  ∀ fuel b d', connected fuel x y d = Ok (b, d') →
    (b = true ↔ same (vivify y (vivify x d)) x y) ∧
    (b = true ↔ same d' x y) ∧
    (x ∈ keys d → y ∈ keys d → (b = true ↔ same d x y)).
Proof.
  intros Hinv%reachable_inv. split.
  - destruct Hinv as [_ [n Ht]]. exists (n + 2). intros fuel Hfuel.
    by eapply connected_returns.
  - intros fuel b d' Hc.
    destruct (connected_Ok_inv _ _ _ _ _ _ Hinv Hc) as (_ & _ & Hpost & Hpre & _).
    split_and!; [done..|]. intros Hx Hy.
    rewrite (vivify_in x d Hx), (vivify_in y d Hy) in Hpre. done.
Qed.

(** X4: [connected] is reflexive.  Whenever [connected(x, x)] returns, on
    any dictionary, it returns [True]; in a reachable state it returns. *)
Theorem connected_reflexive (x : K) :
  (∀ (d : dict) fuel b d', connected fuel x x d = Ok (b, d') → b = true) ∧
  (∀ d : dict, reachable d →
     ∃ N, ∀ fuel, N ≤ fuel → ∃ d', connected fuel x x d = Ok (true, d')).
Proof.
  assert (∀ (d : dict) fuel b d',
            connected fuel x x d = Ok (b, d') → b = true) as Hany.
  { intros d fuel b d'. rewrite connected_unfold.
    destruct (find fuel x d) as [[r d1]| |] eqn:Hf1; [|done..].
    destruct (find fuel x d1) as [[r' d2]| |] eqn:Hf2; [|done..].
    intros [= <- <-]. apply bool_decide_eq_true.
    destruct (find_result_gets _ _ _ _ _ Hf1) as [Hx Hr].
    pose proof (find_again (fuel `max` 2) x d1 r Hx Hr) as Hf.
    rewrite (find_fuel_mono _ _ _ _ _ _ Hf2) in Hf by lia.
    assert (Ok (r', d2) = Ok (r, d1)) as [= -> _] by (apply Hf; lia). done. }
  split; [done|]. intros d [_ [n Ht]]%reachable_inv.
  exists (n + 2). intros fuel Hfuel.
  destruct (connected_returns n fuel x x d Ht Hfuel) as (b & d' & Hc).
  exists d'. by rewrite Hc, (Hany _ _ _ _ Hc).
Qed.

(** X5: [connected] is transitive along a run.  If [connected(x, y)] and
    then [connected(y, z)] have returned [True], [connected(x, z)] returns
    [True] as well. *)
Theorem connected_transitive (d : dict) (x y z : K) f1 f2 d1 d2 :
  reachable d →
  connected f1 x y d = Ok (true, d1) →
  connected f2 y z d1 = Ok (true, d2) →
  ∃ N, ∀ fuel, N ≤ fuel → ∃ d3, connected fuel x z d2 = Ok (true, d3).
Proof.
  intros Hinv%reachable_inv Hc1 Hc2.
  destruct (connected_Ok_inv _ _ _ _ _ _ Hinv Hc1) as (Hinv1 & _ & Hxy & _).
  destruct (connected_Ok_inv _ _ _ _ _ _ Hinv1 Hc2)
    as ([_ [n Ht2]] & Hkeep & Hyz & _).
  exists (n + 2). intros fuel Hfuel.
  apply (connected_same n); [done..|].
  eapply same_trans; [|by apply Hyz]. eapply same_keeps; [done|]. by apply Hxy.
Qed.

Lemma tall_closed n d k v : tall n d → get d k = Some v → v ∈ keys d.
Proof.
  intros Ht Hg. destruct (Ht k) as [r Hr]; [apply get_is_Some; by eexists|].
  destruct n as [|n]; [done|]. rewrite root_of_equation_S, Hg in Hr.
  case_decide; [subst; apply get_is_Some; by eexists|].
  by eapply root_of_in_keys.
Qed.

(** A walk that starts elsewhere cannot end in [x] when no other key has
    [x] as its parent. *)
Lemma no_walk_into (D : dict) x n k r :
  (∀ k v, get D k = Some v → v = x → k = x) →
  root_of n D k = Some r → k ≠ x → r ≠ x.
Proof.
  intros Hpar. revert k. induction n as [|n IH]; intros k; [done|].
  rewrite root_of_equation_S. destruct (get D k) as [p|] eqn:Hp; [|done].
  case_decide; [by intros [= <-]|].
  intros Hr Hk. apply (IH p); [done|]. intros ->. by apply Hk, (Hpar k x).
Qed.

Lemma elem_of_keys_vivify_iff x d k :
  k ∈ keys (vivify x d) ↔ k ∈ keys d ∨ k = x.
Proof.
  rewrite keys_vivify. case_decide.
  - split; [by left|]. by intros [?| ->].
  - by rewrite elem_of_app, list_elem_of_singleton.
Qed.

Lemma unseen_alone n d x y :
  tall n d → x ∉ keys d → x ≠ y → ¬ same (vivify y (vivify x d)) x y.
Proof.
  intros Ht Hx Hne (r & [nx Hrx] & [ny Hry]).
  assert (get (vivify y (vivify x d)) x = Some x) as Hroot.
  { rewrite !get_vivify_match. apply get_None in Hx. rewrite Hx.
    by rewrite decide_True. }
  assert (r = x) as ->.
  { eapply root_of_det; [exact Hrx|]. by apply (root_of_root 0). }
  eapply no_walk_into; [|exact Hry|intros Heq; by apply Hne|done].
  intros k v. rewrite !get_vivify_match.
  destruct (get d k) as [v'|] eqn:Hk.
  - intros [= <-] ->. exfalso. by eapply Hx, tall_closed.
  - case_decide; [done|]. case_decide; [|done]. intros [= <-]. congruence.
Qed.

(** X6: an element that is no key yet is connected to nothing else.  In a
    reachable state, for an unseen [x] and any other [y], [connected(x, y)]
    and [connected(y, x)] return [False], and both elements are keys
    afterwards. *)
Theorem connected_unseen (d : dict) (x y : K) :
  reachable d → x ∉ keys d → x ≠ y →
  ∃ N, ∀ fuel, N ≤ fuel →
    ∃ d1 d2, connected fuel x y d = Ok (false, d1) ∧
             connected fuel y x d = Ok (false, d2) ∧
             x ∈ keys d1 ∧ y ∈ keys d1 ∧ x ∈ keys d2 ∧ y ∈ keys d2.
Proof.
  intros Hinv%reachable_inv Hx Hne. destruct (Hinv) as [_ [n Ht]].
  exists (n + 2). intros fuel Hfuel.
  destruct (connected_returns n fuel x y d Ht Hfuel) as (b1 & d1 & Hc1).
  destruct (connected_returns n fuel y x d Ht Hfuel) as (b2 & d2 & Hc2).
  destruct (connected_Ok_inv _ _ _ _ _ _ Hinv Hc1) as (_ & _ & _ & Hb1 & Hk1).
  destruct (connected_Ok_inv _ _ _ _ _ _ Hinv Hc2) as (_ & _ & _ & Hb2 & Hk2).
  assert (b1 = false) as ->.
  { apply not_true_is_false. intros Hb%Hb1. by eapply unseen_alone. }
  assert (b2 = false) as ->.
  { apply not_true_is_false. intros (r & Hy' & Hx')%Hb2.
    eapply unseen_alone; [done..|]. exists r.
    split; by apply reaches_vivify_comm. }
  exists d1, d2. rewrite Hk1, Hk2, !elem_of_keys_vivify_iff. by split_and!; auto.
Qed.

(** The classes after [union]. *)
Lemma union_partition n fuel x y d :
  tall n d → n + 2 ≤ fuel →
  ∃ d', union fuel x y d = Ok (tt, d') ∧
        keys d' = keys (vivify y (vivify x d)) ∧
        ∀ a b, same d' a b ↔ merged (vivify y (vivify x d)) x y a b.
Proof.
  intros Ht Hfuel.
  destruct (union_spec n fuel x y d Ht Hfuel)
    as (rx & ry & d1 & d2 & d' & _ & _ & _ & Hu & Hk & _ & Hlink & Hx & Hy
        & _ & _ & _ & _ & _ & Hx0 & Hy0).
  set (D := vivify y (vivify x d)) in *.
  assert (tall (S (S n)) D) as HtD by (by do 2 apply tall_vivify).
  assert (∀ k r, reaches D k r → reaches d' k (link_to rx ry r)) as Hstep.
  { intros k r Hr. pose proof (reaches_in_keys _ _ _ Hr) as Hin.
    apply elem_of_keys_vivify_iff in Hin as [Hin| ->];
      [apply elem_of_keys_vivify_iff in Hin as [Hin| ->]|].
    - destruct (Ht k Hin) as [r0 Hr0].
      assert (r = r0) as ->.
      { eapply reaches_det; [done|]. exists n.
        by do 2 apply keeps_roots_vivify. }
      eexists. by apply Hlink.
    - rewrite (reaches_det _ _ _ _ Hr Hx0). unfold link_to.
      rewrite decide_True by done. by eexists.
    - rewrite (reaches_det _ _ _ _ Hr Hy0). unfold link_to.
      case_decide; by eexists. }
  assert (∀ a, same D a x → reaches d' a ry) as Hax.
  { intros a (r & Ha & Hxr). rewrite (reaches_det _ _ _ _ Hxr Hx0) in Ha.
    apply Hstep in Ha. unfold link_to in Ha. by rewrite decide_True in Ha. }
  assert (∀ a, same D a y → reaches d' a ry) as Hay.
  { intros a (r & Ha & Hyr). rewrite (reaches_det _ _ _ _ Hyr Hy0) in Ha.
    apply Hstep in Ha. unfold link_to in Ha. by case_decide; subst. }
  exists d'. split_and!; [done..|]. intros a b. split.
  - intros (r & Ha & Hb).
    destruct (HtD a) as [ra Hra]; [rewrite <-Hk; by eapply reaches_in_keys|].
    destruct (HtD b) as [rb Hrb]; [rewrite <-Hk; by eapply reaches_in_keys|].
    assert (reaches D a ra) as Ha0 by (by eexists).
    assert (reaches D b rb) as Hb0 by (by eexists).
    pose proof (reaches_det _ _ _ _ Ha (Hstep _ _ Ha0)) as Hra'.
    pose proof (reaches_det _ _ _ _ Hb (Hstep _ _ Hb0)) as Hrb'.
    unfold merged, link_to in *.
    destruct (decide (ra = rx)) as [->|?], (decide (rb = rx)) as [->|?].
    + left. by exists rx.
    + right. split; [left; by exists rx|right]. exists rb. split; [done|].
      congruence.
    + right. split; [right|left; by exists rx]. exists ra. split; [done|].
      congruence.
    + left. exists ra. split; [done|]. congruence.
  - intros [(r & Ha & Hb)|[Ha Hb]].
    + exists (link_to rx ry r). split; by apply Hstep.
    + exists ry. split; [destruct Ha|destruct Hb]; auto.
Qed.

(** X7: [union(x, y)] merges the class of [x] and the class of [y] and
    nothing else.  After the call two elements are in one class exactly when
    they were in one class before, or each of them was in the class of [x]
    or of [y]; "before" is the state with unseen arguments entered as their
    own parents. *)
Theorem union_merges_exactly (d : dict) (x y : K) :
  reachable d →
  ∃ N, ∀ fuel, N ≤ fuel →
    ∃ d', union fuel x y d = Ok (tt, d') ∧
          ∀ a b, same d' a b ↔ merged (vivify y (vivify x d)) x y a b.
Proof.
  intros [_ [n Ht]]%reachable_inv. exists (n + 2). intros fuel Hfuel.
  destruct (union_partition n fuel x y d Ht Hfuel) as (d' & Hu & _ & Hsame).
  by exists d'.
Qed.

(** X8: the order of the arguments of [union] does not matter for the
    classes: from one state, [union(x, y)] and [union(y, x)] lead to the
    same classes (only the surviving root differs). *)
Theorem union_order_same_classes (d : dict) (x y : K) :
  reachable d →
  ∃ N, ∀ fuel, N ≤ fuel →
    ∃ d1 d2, union fuel x y d = Ok (tt, d1) ∧
             union fuel y x d = Ok (tt, d2) ∧
             ∀ a b, same d1 a b ↔ same d2 a b.
Proof.
  intros [_ [n Ht]]%reachable_inv. exists (n + 2). intros fuel Hfuel.
  destruct (union_partition n fuel x y d Ht Hfuel) as (d1 & Hu1 & _ & Hs1).
  destruct (union_partition n fuel y x d Ht Hfuel) as (d2 & Hu2 & _ & Hs2).
  exists d1, d2. split_and!; [done..|]. intros a b. rewrite Hs1, Hs2.
  assert (∀ u v, same (vivify y (vivify x d)) u v ↔
                 same (vivify x (vivify y d)) u v) as Hcomm.
  { intros u v. split; intros (r & ? & ?); exists r;
      split; by apply reaches_vivify_comm. }
  unfold merged. rewrite !Hcomm. tauto.
Qed.

Lemma exec_query_keeps fuel o d v d' :
  inv d → (∀ x y, o ≠ Union x y) →
  exec fuel o d = Ok (v, d') → keeps_roots d d'.
Proof.
  intros Hinv Hq. pose proof Hinv as [_ [n Ht]].
  destruct o as [x| |x|x y|x y| |]; cbn [exec]; unfold bind at 1.
  - intros [= _ <-]. apply keeps_roots_refl.
  - intros [= _ <-]. apply keeps_roots_refl.
  - destruct (find fuel x d) as [[r d1]| |] eqn:Hf; [|done..]. intros [= _ <-].
    apply (find_Ok_inv (S n)) in Hf as (_ & _ & Hkeep & _);
      [|by apply tall_vivify].
    eapply keeps_roots_trans; [apply keeps_roots_vivify|done].
  - by destruct (Hq x y).
  - destruct (connected fuel x y d) as [[b d1]| |] eqn:Hc; [|done..].
    intros [= _ <-]. by apply connected_Ok_inv in Hc as (_ & ? & _).
  - destruct (iter fuel d) as [[l d1]| |] eqn:Hit; [|done..]. intros [= _ <-].
    destruct (iter_spec _ n (fuel `max` n) d (tall_rooted _ _ Ht))
      as (d2 & Hit2 & _ & Hkeep); [lia|].
    rewrite (fuel_mono_iter _ _ _ _ _ Hit) in Hit2 by lia. by simplify_eq.
  - destruct (itersets fuel d) as [[l d1]| |] eqn:Hit; [|done..].
    intros [= _ <-].
    destruct (itersets_spec _ n (fuel `max` n) d (tall_rooted _ _ Ht))
      as (d2 & Hit2 & _ & Hkeep); [lia|].
    rewrite (fuel_mono_itersets _ _ _ _ _ Hit) in Hit2 by lia. by simplify_eq.
Qed.

(** X9: only [union] changes a representative.  After any other call
    (membership, truth test, find, connected, either enumeration) every key
    has the root it had before, so two keys of the old state are in one
    class afterwards exactly when they were before. *)
Theorem queries_keep_roots (d : dict) (o : op) fuel v d' :
  reachable d → (∀ x y, o ≠ Union x y) →
  exec fuel o d = Ok (v, d') →
  (∀ k r, reaches d k r → reaches d' k r) ∧
  (∀ a b, a ∈ keys d → b ∈ keys d → (same d a b ↔ same d' a b)).
Proof.
  intros Hinv%reachable_inv Hq Hex.
  pose proof (exec_query_keeps _ _ _ _ _ Hinv Hq Hex) as Hkeep.
  destruct Hinv as [_ [n Ht]]. split.
  - intros k r. by apply keeps_roots_reaches.
  - intros a b Ha Hb. split; [by apply same_keeps|].
    intros (r & Har & Hbr).
    destruct (Ht a Ha) as [ra Hra]. destruct (Ht b Hb) as [rb Hrb].
    assert (reaches d' a ra) as Ha' by (eexists; by apply Hkeep).
    assert (reaches d' b rb) as Hb' by (eexists; by apply Hkeep).
    rewrite <-(reaches_det _ _ _ _ Har Ha') in Hra.
    rewrite <-(reaches_det _ _ _ _ Hbr Hb') in Hrb.
    exists r. split; by eexists.
Qed.

Lemma keys_vivify_track x d : keys (vivify x d) = track (keys d) x.
Proof. apply keys_vivify. Qed.

Lemma exec_keys fuel o d v d' :
  inv d → exec fuel o d = Ok (v, d') → keys d' = keys_after o (keys d).
Proof.
  intros Hinv. pose proof Hinv as [_ [n Ht]].
  destruct o as [x| |x|x y|x y| |]; cbn [exec keys_after]; unfold bind at 1.
  - by intros [= _ <-].
  - by intros [= _ <-].
  - destruct (find fuel x d) as [[r d1]| |] eqn:Hf; [|done..]. intros [= _ <-].
    apply (find_Ok_inv (S n)) in Hf as (_ & -> & _); [|by apply tall_vivify].
    apply keys_vivify_track.
  - destruct (union fuel x y d) as [[[] d1]| |] eqn:Hu; [|done..].
    intros [= _ <-].
    destruct (union_partition n (fuel `max` (n + 2)) x y d Ht)
      as (d2 & Hu2 & Hk & _); [lia|].
    rewrite (fuel_mono_union x y _ _ _ _ _ Hu) in Hu2 by lia. simplify_eq.
    by rewrite Hk, !keys_vivify_track.
  - destruct (connected fuel x y d) as [[b d1]| |] eqn:Hc; [|done..].
    intros [= _ <-]. apply connected_Ok_inv in Hc as (_ & _ & _ & _ & ->);
      [|done]. by rewrite !keys_vivify_track.
  - destruct (iter fuel d) as [[l d1]| |] eqn:Hit; [|done..]. intros [= _ <-].
    destruct (iter_spec _ n (fuel `max` n) d (tall_rooted _ _ Ht))
      as (d2 & Hit2 & Hk & _); [lia|].
    rewrite (fuel_mono_iter _ _ _ _ _ Hit) in Hit2 by lia. by simplify_eq.
  - destruct (itersets fuel d) as [[l d1]| |] eqn:Hit; [|done..].
    intros [= _ <-].
    destruct (itersets_spec _ n (fuel `max` n) d (tall_rooted _ _ Ht))
      as (d2 & Hit2 & Hk & _); [lia|].
    rewrite (fuel_mono_itersets _ _ _ _ _ Hit) in Hit2 by lia. by simplify_eq.
Qed.

Lemma keys_after_call_aux (d : dict) (o : op) fuel v d' :
  reachable d → exec fuel o d = Ok (v, d') →
  keys d' = keys_after o (keys d).
Proof. intros Hinv%reachable_inv. by apply exec_keys. Qed.

(** X10: which keys a call adds.  [find(x)] appends [x] when it is unseen;
    [union(x, y)] and [connected(x, y)] append [x] and then [y] when unseen
    (also when they return [False] or merge nothing); membership, the truth
    test and the enumerations add nothing.  Existing keys keep their
    positions. *)
Theorem keys_after_call (d : dict) (o : op) fuel v d' :
  reachable d → exec fuel o d = Ok (v, d') →
  keys d' = keys_after o (keys d).
Proof. intros Hinv%reachable_inv. by apply exec_keys. Qed.

Lemma track_prefix ks x : ks `prefix_of` track ks x.
Proof.
  unfold track. case_decide; [done|]. by exists [x].
Qed.

(** X11: elements are never removed or reordered.  After any sequence of
    calls the old key list is a prefix of the new one, so an element that
    was contained stays contained. *)
Theorem keys_only_grow (d : dict) (os : list op) fuel vs d' :
  reachable d → run fuel os d = Ok (vs, d') →
  keys d `prefix_of` keys d' ∧
  ∀ x, contains x d = Ok (true, d) → contains x d' = Ok (true, d').
Proof.
  intros Hd Hrun.
  assert (keys d `prefix_of` keys d') as Hpre.
  { revert d vs d' Hd Hrun.
    induction os as [|o os IH]; intros d vs d' Hd; cbn [run].
    - by intros [= _ <-].
    - unfold bind at 1.
      destruct (exec fuel o d) as [[v d1]| |] eqn:Hex; [|done..].
      unfold bind at 1.
      destruct (run fuel os d1) as [[vs1 d2]| |] eqn:Hrun; [|done..].
      intros [= _ <-]. etrans; [|eapply IH; [by eapply reachable_exec|done]].
      rewrite (keys_after_call_aux _ _ _ _ _ Hd Hex).
      destruct o; cbn [keys_after]; try done; try apply track_prefix.
      all: etrans; apply track_prefix. }
  split; [done|]. intros x. rewrite !contains_spec.
  intros [= Hx%bool_decide_eq_true]. do 2 f_equal.
  apply bool_decide_eq_true. destruct Hpre as [l ->].
  apply elem_of_app. by left.
Qed.

(** The loops leave every key pointing straight at its root. *)
Lemma for_keys_find_flat {A} (g : A → K → K → A) ρ n fuel size todo :
  ∀ pos acc d,
    rooted n ρ d → n ≤ fuel → length d = size → pos + todo = size →
    (∀ k, k ∈ take pos (keys d) → get d k = Some (ρ k)) →
    ∃ acc' d', for_keys (λ key a, r <- find fuel key ;; ret (g a key r))
                 size todo pos acc d = Ok (acc', d') ∧
               keys d' = keys d ∧
               ∀ k, k ∈ keys d → get d' k = Some (ρ k).
Proof.
  induction todo as [|todo IH]; intros pos acc d Hroot Hfuel Hsize Hpos Hflat;
    rewrite for_keys_unfold, decide_True by done.
  - rewrite lookup_ge_None_2 by (rewrite length_keys; lia).
    exists acc, d. split_and!; [done..|]. intros k Hk. apply Hflat.
    by rewrite take_ge by (rewrite length_keys; lia).
  - destruct (lookup_lt_is_Some_2 (keys d) pos) as [key Hkey];
      [rewrite length_keys; lia|].
    rewrite Hkey.
    assert (key ∈ keys d) as Hin by (by eapply list_elem_of_lookup_2).
    pose proof (Hroot key Hin) as Hr.
    destruct (find_spec n fuel key d (ρ key)) as (d1 & Hf & Hk1 & Hg1);
      [by rewrite vivify_in|done|].
    rewrite vivify_in in Hk1, Hg1 by done.
    assert (keeps_roots d d1) as Hkeep1 by (by eapply compress_keeps_roots).
    unfold bind at 1. rewrite Hf. unfold ret at 1.
    destruct (IH (S pos) (g acc key (ρ key)) d1) as (acc' & d' & Hloop & Hk' & Hflat');
      [by eapply rooted_keeps|done| |lia| |].
    { by rewrite <-length_keys, Hk1, length_keys. }
    { intros k. rewrite Hk1, (take_S_r _ _ _ Hkey), Hg1.
      intros [Hk| ->%list_elem_of_singleton]%elem_of_app.
      - case_decide as Hpath; [|by apply Hflat]. f_equal.
        pose proof (path_of_root _ _ _ _ _ Hr Hpath) as Hkr.
        rewrite Hroot in Hkr; [congruence|].
        by eapply subseteq_take.
      - rewrite decide_True; [done|]. by eapply path_of_start. }
    exists acc', d'. rewrite Hloop. split_and!; [done|congruence|].
    intros k Hk. apply Hflat'. by rewrite Hk1.
Qed.

Lemma rooted_root_fixed n ρ d k :
  rooted n ρ d → k ∈ keys d → ρ k ∈ keys d ∧ ρ (ρ k) = ρ k.
Proof.
  intros Hroot Hk. pose proof (Hroot k Hk) as Hr.
  pose proof (root_of_is_root _ _ _ _ Hr) as Hrr.
  assert (ρ k ∈ keys d) as Hin by (apply get_is_Some; by eexists).
  split; [done|]. pose proof (Hroot _ Hin) as Hr'.
  eapply root_of_det; [exact Hr'|]. by apply (root_of_root 0).
Qed.

(** X12: what [__iter__] yields and what it leaves.  In a reachable state
    the pairs come in key order, one per key, each key with the root of its
    class; afterwards every key has that root as its direct parent, so a
    later [find] of it returns after one link and changes nothing. *)
Theorem iter_yields_roots (d : dict) :
  reachable d →
  ∃ N, ∀ fuel, N ≤ fuel →
    ∃ l d', iter fuel d = Ok (l, d') ∧
            l.*1 = keys d ∧ keys d' = keys d ∧
            ∀ k r, (k, r) ∈ l →
              reaches d k r ∧ get d' k = Some r ∧ is_root d' r ∧
              find 2 k d' = Ok (r, d').
Proof.
  intros [_ [n Ht]]%reachable_inv. exists n. intros fuel Hfuel.
  pose proof (tall_rooted _ _ Ht) as Hroot.
  set (ρ := λ k, default k (root_of n d k)) in *.
  destruct (iter_spec ρ n fuel d Hroot Hfuel) as (d' & Hit & Hk & _).
  destruct (for_keys_find_flat (λ out key r, out ++ [(key, r)]) ρ n fuel
              (length d) (length d) 0 [] d) as (l1 & d1 & Hit1 & _ & Hflat);
    [done..|by intros k ?%elem_of_nil|].
  unfold iter in Hit. rewrite Hit in Hit1. simplify_eq.
  eexists _, d1. split_and!; [done| |done|].
  - rewrite <-list_fmap_compose. apply list_fmap_id.
  - intros k r (k' & [= -> ->] & Hin)%list_elem_of_fmap.
    destruct (rooted_root_fixed _ _ _ _ Hroot Hin) as [Hrin Hrr].
    assert (get d1 (ρ k') = Some (ρ k')) as Hrootd1.
    { rewrite (Hflat _ Hrin). by rewrite Hrr. }
    split_and!; [by exists n; apply Hroot|by apply Hflat|done|].
    apply find_again; [by apply Hflat|done|lia].
Qed.

(** X13: [itersets] yields the classes.  Every yielded set is the whole
    class of each of its elements: an element is in the set exactly when it
    is in one class with any given member.  Afterwards every key has its
    root as direct parent. *)
Theorem itersets_yields_classes (d : dict) :
  reachable d →
  ∃ N, ∀ fuel, N ≤ fuel →
    ∃ sets d', itersets fuel d = Ok (sets, d') ∧
      (∀ A a, A ∈ sets → a ∈ A → ∀ b, b ∈ A ↔ same d a b) ∧
      (∀ k, k ∈ keys d → ∃ r, reaches d k r ∧ get d' k = Some r ∧
                              is_root d' r).
Proof.
  intros [_ [n Ht]]%reachable_inv. exists n. intros fuel Hfuel.
  pose proof (tall_rooted _ _ Ht) as Hroot.
  set (ρ := λ k, default k (root_of n d k)) in *.
  destruct (itersets_spec ρ n fuel d Hroot Hfuel) as (d' & Hit & Hk & _).
  destruct (for_keys_find_flat (λ ec key r, classes_add ec r key) ρ n fuel
              (length d) (length d) 0 [] d) as (ec1 & d1 & Hit1 & _ & Hflat);
    [done..|by intros k ?%elem_of_nil|].
  assert (d' = d1) as ->.
  { unfold itersets in Hit. unfold bind at 1 in Hit. rewrite Hit1 in Hit.
    unfold ret in Hit. congruence. }
  eexists _, d1. split_and!; [done| |].
  - destruct (grouped_group ρ (keys d)) as (Hnd & Hmem & _).
    fold (group ρ (keys d)).
    intros A a [[r A'] [[= <-] Hin]]%list_elem_of_fmap Ha b.
    apply list_elem_of_lookup_1 in Hin as [i Hi].
    pose proof (get_lookup_NoDup _ _ _ _ Hnd Hi) as HA.
    pose proof (Hmem r) as HmemA. rewrite HA in HmemA. cbn in HmemA.
    apply HmemA in Ha as [Hain Har]. rewrite HmemA. split.
    + intros [Hbin Hbr]. exists r. split; exists n.
      * rewrite <-Har. by apply Hroot.
      * rewrite <-Hbr. by apply Hroot.
    + intros (r' & Har' & Hbr').
      pose proof (reaches_in_keys _ _ _ Hbr') as Hbin. split; [done|].
      assert (reaches d a (ρ a)) as Ha0 by (exists n; by apply Hroot).
      assert (reaches d b (ρ b)) as Hb0 by (exists n; by apply Hroot).
      rewrite <-Har, (reaches_det _ _ _ _ Ha0 Har').
      by eapply reaches_det.
  - intros k Hin. exists (ρ k).
    destruct (rooted_root_fixed _ _ _ _ Hroot Hin) as [Hrin Hrr].
    split_and!; [by exists n; apply Hroot|by apply Hflat|].
    unfold is_root. rewrite (Hflat _ Hrin). by rewrite Hrr.
Qed.

(** ** [__repr__] *)

Lemma insert_item_perm less x l : insert_item less x l ≡ₚ x :: l.
Proof.
  induction l as [|y l IH]; simpl; [done|].
  destruct (item_lt less y x); [|done]. rewrite IH. apply Permutation_swap.
Qed.

Lemma sorted_perm less l : sorted less l ≡ₚ l.
Proof.
  induction l as [|x l IH]; simpl; [done|].
  by rewrite insert_item_perm, IH.
Qed.

Lemma elem_of_get_NoDup {V} (d : list (K * V)) k (v : V) :
  NoDup (keys d) → (k, v) ∈ d ↔ get d k = Some v.
Proof.
  intros Hnd. split; [|apply get_Some_elem_of].
  intros [i Hi]%list_elem_of_lookup_1. by eapply get_lookup_NoDup.
Qed.

(** The groups collected from a list of items: each value is bound to the
    keys that come with it, in the order of the list. *)
Lemma value_dict_foldl (l : list (K * K)) :
  let vd := foldl (λ vd item, value_dict_add vd item.1 item.2) [] l in
  NoDup (keys vd) ∧
  (∀ v, default [] (get vd v) = (filter (λ it, it.2 = v) l).*1) ∧
  (∀ v, is_Some (get vd v) ↔ ∃ k, (k, v) ∈ l).
Proof.
  induction l as [|[k0 v0] l IH] using rev_ind; cbn zeta.
  - split_and!; [apply NoDup_nil_2|done|]. intros v. split.
    + by intros [? ?].
    + by intros [k ?%elem_of_nil].
  - cbn zeta in IH. rewrite foldl_snoc.
    set (vd := foldl _ [] l) in *. destruct IH as (Hnd & Hmem & Hdom).
    unfold value_dict_add. cbn [fst snd]. split_and!.
    + by apply NoDup_keys_put.
    + intros v. rewrite get_put, filter_app, fmap_app.
      destruct (decide (v = v0)) as [->|Hv]; cbn [default].
      * by rewrite Hmem, filter_cons_True.
      * rewrite Hmem, filter_cons_False by (cbn; congruence).
        by rewrite filter_nil, app_nil_r.
    + intros v. rewrite get_put.
      destruct (decide (v = v0)) as [->|Hv].
      * split; [|by eauto]. intros _. exists k0.
        apply elem_of_app. right. by left.
      * rewrite Hdom. split; intros [k Hk]; exists k.
        -- apply elem_of_app. by left.
        -- apply elem_of_app in Hk as [?|[=]%list_elem_of_singleton]; done.
Qed.

Lemma StronglySorted_filter {A} (R : relation A) (P : A → Prop)
    `{∀ x, Decision (P x)} (l : list A) :
  StronglySorted R l → StronglySorted R (filter P l).
Proof.
  induction 1 as [|x l Hl IH Hx]; [constructor|].
  rewrite filter_cons. case_decide; [|done]. constructor; [done|].
  apply Forall_forall. intros y [_ Hy]%list_elem_of_filter.
  by eapply Forall_forall in Hx.
Qed.

Lemma insert_item_sorted less x l :
  (∀ a b c, less a b = true → less b c = true → less a c = true) →
  (∀ a b, a ≠ b → less a b = true ∨ less b a = true) →
  x.1 ∉ l.*1 →
  StronglySorted (λ a b, less a.1 b.1 = true) l →
  StronglySorted (λ a b, less a.1 b.1 = true) (insert_item less x l).
Proof.
  intros Htrans Htri. induction l as [|y l IH]; simpl.
  - intros _ _. by repeat constructor.
  - intros [Hxy Hxl]%not_elem_of_cons [Hl Hy]%StronglySorted_inv.
    unfold item_lt. rewrite decide_False by congruence.
    destruct (less y.1 x.1) eqn:Hlt.
    + constructor; [by apply IH|]. rewrite insert_item_perm. by constructor.
    + constructor; [by constructor|].
      assert (less x.1 y.1 = true) as Hxy'.
      { destruct (Htri x.1 y.1); [done..|congruence]. }
      constructor; [done|]. eapply Forall_impl; [done|]. cbn. eauto.
Qed.

Lemma sorted_sorted less l :
  (∀ a b c, less a b = true → less b c = true → less a c = true) →
  (∀ a b, a ≠ b → less a b = true ∨ less b a = true) →
  NoDup l.*1 →
  StronglySorted (λ a b, less a.1 b.1 = true) (sorted less l).
Proof.
  intros Htrans Htri. induction l as [|x l IH]; simpl; [constructor|].
  intros [Hx Hnd]%NoDup_cons. apply insert_item_sorted; [done..| |by apply IH].
  by rewrite sorted_perm.
Qed.

(** X14: [__repr__] groups the keys by their direct parent, not by class.
    With unique keys and [<] a transitive, total comparison, the groups of
    [value_dict] have distinct labels, a label is listed exactly when it is
    the parent of some key, and the group of a label holds exactly the keys
    with that parent, in ascending order.  The dictionary is left as it
    is. *)
Theorem repr_groups_by_parent (less : K → K → bool)
    (str_elem repr_elem : K → string) (d : dict) :
  NoDup (keys d) →
  (∀ a b c, less a b = true → less b c = true → less a c = true) →
  (∀ a b, a ≠ b → less a b = true ∨ less b a = true) →
  (∃ s, repr less str_elem repr_elem d = Ok (s, d)) ∧
  NoDup (keys (value_dict less d)) ∧
  (∀ v, v ∈ keys (value_dict less d) ↔ ∃ k, get d k = Some v) ∧
  ∀ v g, get (value_dict less d) v = Some g →
    (∀ k, k ∈ g ↔ get d k = Some v) ∧
    StronglySorted (λ a b, less a b = true) g.
Proof.
  intros Hnd Htrans Htri.
  destruct (value_dict_foldl (sorted less d)) as (Hvnd & Hmem & Hdom).
  fold (value_dict less d) in Hvnd, Hmem, Hdom.
  split_and!; [by eexists|done| |].
  - intros v. rewrite <-get_is_Some, Hdom. apply exist_proper. intros k.
    by rewrite sorted_perm, elem_of_get_NoDup.
  - intros v g Hg. pose proof (Hmem v) as Hgv. rewrite Hg in Hgv.
    cbn in Hgv. subst g. split.
    + intros k. rewrite list_elem_of_fmap. split.
      * intros ([k' v'] & -> & [Hv Hin]%list_elem_of_filter). cbn in Hv.
        subst v'. rewrite sorted_perm in Hin. by apply elem_of_get_NoDup.
      * intros Hk. exists (k, v). split; [done|].
        apply list_elem_of_filter. split; [done|].
        rewrite sorted_perm. by apply elem_of_get_NoDup.
    + apply (StronglySorted_fmap fst (λ a b, less a.1 b.1 = true)); [done|].
      apply StronglySorted_filter. by apply sorted_sorted.
Qed.

Lemma flat_after_enumeration fuel d d' :
  inv d →
  (∃ l, iter fuel d = Ok (l, d')) ∨ (∃ l, itersets fuel d = Ok (l, d')) →
  keys d' = keys d ∧
  ∃ n ρ, rooted n ρ d ∧ ∀ k, k ∈ keys d → get d' k = Some (ρ k).
Proof.
  intros [_ [n Ht]] Hen. pose proof (tall_rooted _ _ Ht) as Hroot.
  set (ρ := λ k, default k (root_of n d k)) in *.
  destruct Hen as [[l Hit]|[l Hit]].
  - destruct (for_keys_find_flat (λ out key r, out ++ [(key, r)]) ρ n
                (fuel `max` n) (length d) (length d) 0 [] d)
      as (l1 & d1 & Hit1 & Hk & Hflat); [done|lia|done..| |].
    { by intros k ?%elem_of_nil. }
    apply (fuel_mono_iter _ (fuel `max` n)) in Hit; [|lia].
    unfold iter in Hit. rewrite Hit in Hit1. simplify_eq.
    split; [done|]. by exists n, ρ.
  - destruct (for_keys_find_flat (λ ec key r, classes_add ec r key) ρ n
                (fuel `max` n) (length d) (length d) 0 [] d)
      as (l1 & d1 & Hit1 & Hk & Hflat); [done|lia|done..| |].
    { by intros k ?%elem_of_nil. }
    apply (fuel_mono_itersets _ (fuel `max` n)) in Hit; [|lia].
    unfold itersets in Hit. unfold bind at 1 in Hit. rewrite Hit1 in Hit.
    unfold ret in Hit. assert (d' = d1) as -> by congruence.
    split; [done|]. by exists n, ρ.
Qed.

(** X15: after an enumeration [__repr__] shows the classes.  Once
    [__iter__] or [itersets] has run to its end in a reachable state, every
    label of [value_dict] is a root and its group holds exactly the elements
    of the class of that root. *)
Theorem repr_after_enumeration (less : K → K → bool) (d : dict) fuel d' :
  reachable d →
  (∃ l, iter fuel d = Ok (l, d')) ∨ (∃ l, itersets fuel d = Ok (l, d')) →
  ∀ v g, get (value_dict less d') v = Some g →
    is_root d' v ∧ ∀ k, k ∈ g ↔ reaches d k v.
Proof.
  intros Hinv%reachable_inv Hen v g Hg.
  destruct (flat_after_enumeration _ _ _ Hinv Hen) as (Hk & n & ρ & Hroot & Hflat).
  assert (NoDup (keys d')) as Hnd' by (rewrite Hk; apply Hinv).
  destruct (value_dict_foldl (sorted less d')) as (_ & Hmem & Hdom).
  fold (value_dict less d') in Hmem, Hdom.
  assert (∀ k, k ∈ g ↔ get d' k = Some v) as Hgk.
  { intros k. pose proof (Hmem v) as Hgv. rewrite Hg in Hgv. cbn in Hgv.
    subst g. rewrite list_elem_of_fmap. split.
    - intros ([k' v'] & -> & [Hv Hin]%list_elem_of_filter). cbn in Hv.
      subst v'. rewrite sorted_perm in Hin. by apply elem_of_get_NoDup.
    - intros Hk'. exists (k, v). split; [done|].
      apply list_elem_of_filter. split; [done|].
      rewrite sorted_perm. by apply elem_of_get_NoDup. }
  assert (∀ k, get d' k = Some v → k ∈ keys d ∧ v = ρ k) as Hpar.
  { intros k Hkv. assert (k ∈ keys d) as Hin.
    { rewrite <-Hk. apply get_is_Some. by eexists. }
    split; [done|]. rewrite (Hflat _ Hin) in Hkv. congruence. }
  split.
  - destruct (proj1 (Hdom v)) as [k Hkv]; [by eexists|].
    rewrite sorted_perm in Hkv. apply elem_of_get_NoDup in Hkv; [|done].
    destruct (Hpar _ Hkv) as [Hin ->].
    destruct (rooted_root_fixed _ _ _ _ Hroot Hin) as [Hrin Hrr].
    unfold is_root. rewrite (Hflat _ Hrin). by rewrite Hrr.
  - intros k. rewrite Hgk. split.
    + intros [Hin ->]%Hpar. exists n. by apply Hroot.
    + intros Hr. pose proof (reaches_in_keys _ _ _ Hr) as Hin.
      rewrite (Hflat _ Hin). f_equal.
      eapply reaches_det; [|done]. exists n. by apply Hroot.
Qed.

End DisjointSet.

(** ** Integer elements: the scenarios of the documentation *)

Local Open Scope Z_scope.

(** A dictionary with a cycle cannot be reached through the methods; on it
    [find] never returns, whatever the recursion budget. *)
Lemma find_cycle_no_result (fuel : nat) :
  find fuel 1 [(1, 2); (2, 1)] = NoFuel ∧
  find fuel 2 [(1, 2); (2, 1)] = NoFuel.
Proof.
  induction fuel as [|fuel [IH1 IH2]]; [done|].
  rewrite (find_unfold_link fuel 1 _ 2), (find_unfold_link fuel 2 _ 1) by done.
  by rewrite IH1, IH2.
Qed.

(** C2: [union(x, y)] favours its second argument.  When the two calls of
    [find] that open [union] return different roots [rx] and [ry], the
    call stores [ry] as the parent of [rx]; [ry] stays a root, every
    element of the two merged classes now has root [ry], the other classes
    keep theirs, and [find(x)] and [find(y)] return [ry] afterwards.  On a
    fresh structure [union(1, 2)] makes [find(1)] return [2]. *)
Theorem union_second_root_survives :
  (∀ (K : Type) `(Countable K) (d : dict) (x y : K) fuel rx ry d1 d2,
     reachable d →
     find fuel x d = Ok (rx, d1) → find fuel y d1 = Ok (ry, d2) → rx ≠ ry →
     union fuel x y d = Ok (tt, put d2 rx ry) ∧
     get (put d2 rx ry) rx = Some ry ∧
     is_root (put d2 rx ry) ry ∧
     (∀ k, reaches d2 k rx ∨ reaches d2 k ry → reaches (put d2 rx ry) k ry) ∧
     (∀ k r, reaches d2 k r → r ≠ rx → reaches (put d2 rx ry) k r) ∧
     ∃ N, ∀ fuel', (N ≤ fuel')%nat →
       ∃ d3 d4, find fuel' x (put d2 rx ry) = Ok (ry, d3) ∧
                find fuel' y (put d2 rx ry) = Ok (ry, d4)) ∧
  (∀ fuel, (2 ≤ fuel)%nat →
     union fuel 1 2 init = Ok (tt, [(1, 2); (2, 2)]) ∧
     find fuel 1 [(1, 2); (2, 2)] = Ok (2, [(1, 2); (2, 2)])).
Proof.
  split.
  - intros K ? ? d x y fuel rx ry d1 d2. apply union_links_roots.
  - intros fuel Hfuel. split.
    + by apply (fuel_mono_union 1 2 2%nat fuel).
    + by apply (find_fuel_mono 2 fuel).
Qed.

(** C9: the membership test reads [_data] and nothing more: it answers
    whether the element is a key and leaves the state as it is, and so does
    the truth test.  On the empty structure the truth test gives [False]
    (the structure is empty) and [1] is not contained. *)
Theorem contains_reads_only :
  (∀ (K : Type) `(Countable K) (d : dict) (x : K),
     contains x d = Ok (bool_decide (x ∈ keys d), d) ∧
     bool_ d = Ok (negb (bool_decide (keys d = [])), d)) ∧
  bool_ (init (K:=Z)) = Ok (false, init) ∧
  contains 1 init = Ok (false, init).
Proof.
  split; [|done]. intros K ? ? d x. split; [apply contains_spec|apply bool_spec].
Qed.

(** ** The theorems at concrete states

    The states are the one that [union(1, 2)] leaves on a fresh structure,
    and the chain 1 -> 2 -> 3 that a following [union(2, 3)] builds. *)

Local Ltac after_union_1_2 :=
  apply (reachable_exec 1%nat (Union 1 2) init VNone);
  [apply reachable_init | reflexivity].

Local Ltac after_union_2_3 :=
  apply (reachable_exec 1%nat (Union 2 3) [(1, 2); (2, 2)] VNone);
  [after_union_1_2 | reflexivity].

Lemma union_then_connected_forever_witness :
  reachable [(1, 2); (2, 2)] ∧
  ∃ N, ∀ fuel, (N ≤ fuel)%nat →
    ∃ d1, union fuel 3 1 [(1, 2); (2, 2)] = Ok (tt, d1) ∧
      (∀ os, ∃ M, ∀ fuel', (M ≤ fuel')%nat →
         ∃ vs d2 d3, run fuel' os d1 = Ok (vs, d2) ∧
                     connected fuel' 3 1 d2 = Ok (true, d3)) ∧
      (∀ os f1 f2 vs d2 b d3,
         run f1 os d1 = Ok (vs, d2) → connected f2 3 1 d2 = Ok (b, d3) →
         b = true).
Proof.
  split; [after_union_1_2|].
  apply (union_then_connected_forever [(1, 2); (2, 2)] 3 1). after_union_1_2.
Defined.

Lemma union_second_root_survives_witness :
  reachable [(1, 2); (2, 2)] ∧
  find 2 3 [(1, 2); (2, 2)] = Ok (3, [(1, 2); (2, 2); (3, 3)]) ∧
  find 2 1 [(1, 2); (2, 2); (3, 3)] = Ok (2, [(1, 2); (2, 2); (3, 3)]) ∧
  3 ≠ 2 ∧
  union 2 3 1 [(1, 2); (2, 2)] = Ok (tt, [(1, 2); (2, 2); (3, 2)]).
Proof.
  assert (reachable [(1, 2); (2, 2)]) as Hr by after_union_1_2.
  assert (find 2 3 [(1, 2); (2, 2)] = Ok (3, [(1, 2); (2, 2); (3, 3)]))
    as Hx by reflexivity.
  assert (find 2 1 [(1, 2); (2, 2); (3, 3)] = Ok (2, [(1, 2); (2, 2); (3, 3)]))
    as Hy by reflexivity.
  assert (3 ≠ 2) as Hne by lia.
  split_and!; [done..|].
  exact (proj1 (proj1 union_second_root_survives Z _ _ _ 3 1 2%nat 3 2 _ _
                  Hr Hx Hy Hne)).
Defined.

Lemma forest_invariant_witness :
  NoDup (keys [(1, 2); (2, 2)]) ∧ forest [(1, 2); (2, 2)] ∧
  ∀ fuel v d', exec fuel (Union 3 1) [(1, 2); (2, 2)] = Ok (v, d') →
               NoDup (keys d') ∧ forest d'.
Proof.
  assert (NoDup (keys [(1, 2); (2, 2)])) as Hnd
    by (apply (bool_decide_unpack _); vm_compute; exact I).
  assert (forest [(1, 2); (2, 2)]) as Hf.
  { apply inv_forest, reachable_inv. after_union_1_2. }
  split_and!; [done..|].
  exact (proj2 (proj2 forest_invariant (Union 3 1) [(1, 2); (2, 2)] Hnd Hf)).
Defined.

Lemma itersets_partition_witness :
  reachable [(1, 2); (2, 2)] ∧
  ∃ N, ∀ fuel, (N ≤ fuel)%nat →
    ∃ sets d', itersets fuel [(1, 2); (2, 2)] = Ok (sets, d') ∧
      (∀ i j A B, i ≠ j → sets !! i = Some A → sets !! j = Some B → A ## B) ∧
      (∀ A, A ∈ sets → A ≠ ∅) ∧
      ⋃ sets = list_to_set (keys [(1, 2); (2, 2)]) ∧
      keys d' = keys [(1, 2); (2, 2)].
Proof.
  split; [after_union_1_2|].
  apply (itersets_partition [(1, 2); (2, 2)]). after_union_1_2.
Defined.

Lemma find_compresses_path_witness :
  reachable [(1, 2); (2, 3); (3, 3)] ∧
  ∃ n r,
    root_of n (vivify 1 [(1, 2); (2, 3); (3, 3)]) 1 = Some r ∧
    ∀ fuel, (n ≤ fuel)%nat →
      ∃ d', find fuel 1 [(1, 2); (2, 3); (3, 3)] = Ok (r, d') ∧ is_root d' r.
Proof.
  split; [after_union_2_3|].
  destruct (find_compresses_path [(1, 2); (2, 3); (3, 3)] 1)
    as [_ (n & r & Hr & _ & _ & Hf)]; [after_union_2_3|].
  exists n, r. split; [done|]. intros fuel Hfuel.
  destruct (Hf fuel Hfuel) as (d' & ? & ? & _). by exists d'.
Defined.

Lemma find_terminates_witness :
  reachable [(1, 2); (2, 3); (3, 3)] ∧
  ∃ N, ∀ fuel, (N ≤ fuel)%nat →
    ∃ r d', find fuel 1 [(1, 2); (2, 3); (3, 3)] = Ok (r, d').
Proof.
  split; [after_union_2_3|].
  apply (find_terminates [(1, 2); (2, 3); (3, 3)] 1). after_union_2_3.
Defined.

Lemma connected_symmetric_witness :
  reachable [(1, 2); (2, 2)] ∧
  ∃ N, ∀ fuel, (N ≤ fuel)%nat →
    ∃ b d1 d2, connected fuel 1 3 [(1, 2); (2, 2)] = Ok (b, d1) ∧
               connected fuel 3 1 [(1, 2); (2, 2)] = Ok (b, d2).
Proof.
  split; [after_union_1_2|].
  apply (connected_symmetric [(1, 2); (2, 2)] 1 3). after_union_1_2.
Defined.

Lemma union_idempotent_witness :
  reachable [(1, 2); (2, 2)] ∧
  ∃ N, ∀ fuel, (N ≤ fuel)%nat →
    ∃ d1 d2, union fuel 3 1 [(1, 2); (2, 2)] = Ok (tt, d1) ∧
             union fuel 3 1 d1 = Ok (tt, d2) ∧
             keys d2 = keys d1 ∧
             (∀ a b, same d1 a b ↔ same d2 a b) ∧
             ∃ sets e1 e2, itersets fuel d1 = Ok (sets, e1) ∧
                           itersets fuel d2 = Ok (sets, e2).
Proof.
  split; [after_union_1_2|].
  apply (union_idempotent [(1, 2); (2, 2)] 3 1). after_union_1_2.
Defined.

Lemma find_known_keeps_keys_witness :
  reachable [(1, 2); (2, 2)] ∧
  ∀ fuel, iter fuel [(1, 2); (2, 2)] ≠ RuntimeError ∧
          itersets fuel [(1, 2); (2, 2)] ≠ RuntimeError.
Proof.
  split; [after_union_1_2|].
  apply (find_known_keeps_keys [(1, 2); (2, 2)]). after_union_1_2.
Defined.

(** ** The further properties at concrete states *)

Lemma find_unseen_witness :
  (3 ∉ keys [(1, 2); (2, 2)]) ∧ (1 ≤ 1)%nat ∧
  find 1 3 [(1, 2); (2, 2)] = Ok (3, [(1, 2); (2, 2)] ++ [(3, 3)]).
Proof.
  assert (3 ∉ keys [(1, 2); (2, 2)]) as Hx
    by (apply (bool_decide_unpack _); vm_compute; exact I).
  assert (1 ≤ 1)%nat as Hfuel by lia.
  split_and!; [done..|]. exact (find_unseen [(1, 2); (2, 2)] 3 1 Hx Hfuel).
Defined.

Lemma find_stable_witness :
  find 3 1 [(1, 2); (2, 3); (3, 3)] = Ok (3, [(1, 3); (2, 3); (3, 3)]) ∧
  find 2 1 [(1, 3); (2, 3); (3, 3)] = Ok (3, [(1, 3); (2, 3); (3, 3)]) ∧
  find 2 3 [(1, 3); (2, 3); (3, 3)] = Ok (3, [(1, 3); (2, 3); (3, 3)]).
Proof.
  assert (find 3 1 [(1, 2); (2, 3); (3, 3)]
          = Ok (3, [(1, 3); (2, 3); (3, 3)])) as Hf by reflexivity.
  split; [done|].
  apply (find_stable _ _ _ _ _ Hf 2%nat). lia.
Defined.

Lemma connected_decides_same_witness :
  reachable [(1, 2); (2, 2)] ∧
  ∃ N, ∀ fuel, (N ≤ fuel)%nat →
    ∃ b d', connected fuel 1 2 [(1, 2); (2, 2)] = Ok (b, d').
Proof.
  split; [after_union_1_2|].
  apply (connected_decides_same [(1, 2); (2, 2)] 1 2). after_union_1_2.
Defined.

Lemma connected_reflexive_witness :
  reachable [(1, 2); (2, 2)] ∧
  ∃ N, ∀ fuel, (N ≤ fuel)%nat →
    ∃ d', connected fuel 7 7 [(1, 2); (2, 2)] = Ok (true, d').
Proof.
  split; [after_union_1_2|].
  apply (proj2 (connected_reflexive 7) [(1, 2); (2, 2)]). after_union_1_2.
Defined.

Lemma connected_transitive_witness :
  reachable [(1, 2); (2, 3); (3, 3)] ∧
  connected 3 1 2 [(1, 2); (2, 3); (3, 3)]
    = Ok (true, [(1, 3); (2, 3); (3, 3)]) ∧
  connected 3 2 3 [(1, 3); (2, 3); (3, 3)]
    = Ok (true, [(1, 3); (2, 3); (3, 3)]) ∧
  ∃ N, ∀ fuel, (N ≤ fuel)%nat →
    ∃ d3, connected fuel 1 3 [(1, 3); (2, 3); (3, 3)] = Ok (true, d3).
Proof.
  assert (reachable [(1, 2); (2, 3); (3, 3)]) as Hr by after_union_2_3.
  assert (connected 3 1 2 [(1, 2); (2, 3); (3, 3)]
          = Ok (true, [(1, 3); (2, 3); (3, 3)])) as H1 by reflexivity.
  assert (connected 3 2 3 [(1, 3); (2, 3); (3, 3)]
          = Ok (true, [(1, 3); (2, 3); (3, 3)])) as H2 by reflexivity.
  split_and!; [done..|].
  exact (connected_transitive _ 1 2 3 _ _ _ _ Hr H1 H2).
Defined.

Lemma connected_unseen_witness :
  reachable [(1, 2); (2, 2)] ∧ (3 ∉ keys [(1, 2); (2, 2)]) ∧ 3 ≠ 1 ∧
  ∃ N, ∀ fuel, (N ≤ fuel)%nat →
    ∃ d1 d2, connected fuel 3 1 [(1, 2); (2, 2)] = Ok (false, d1) ∧
             connected fuel 1 3 [(1, 2); (2, 2)] = Ok (false, d2) ∧
             3 ∈ keys d1 ∧ 1 ∈ keys d1 ∧ 3 ∈ keys d2 ∧ 1 ∈ keys d2.
Proof.
  assert (reachable [(1, 2); (2, 2)]) as Hr by after_union_1_2.
  assert (3 ∉ keys [(1, 2); (2, 2)]) as Hx
    by (apply (bool_decide_unpack _); vm_compute; exact I).
  assert (3 ≠ 1) as Hne by lia.
  split_and!; [done..|]. exact (connected_unseen _ 3 1 Hr Hx Hne).
Defined.

Lemma union_merges_exactly_witness :
  reachable [(1, 2); (2, 2)] ∧
  ∃ N, ∀ fuel, (N ≤ fuel)%nat →
    ∃ d', union fuel 3 1 [(1, 2); (2, 2)] = Ok (tt, d') ∧
          ∀ a b, same d' a b ↔
                 merged (vivify 1 (vivify 3 [(1, 2); (2, 2)])) 3 1 a b.
Proof.
  split; [after_union_1_2|].
  apply (union_merges_exactly [(1, 2); (2, 2)] 3 1). after_union_1_2.
Defined.

Lemma union_order_same_classes_witness :
  reachable [(1, 2); (2, 2)] ∧
  ∃ N, ∀ fuel, (N ≤ fuel)%nat →
    ∃ d1 d2, union fuel 3 1 [(1, 2); (2, 2)] = Ok (tt, d1) ∧
             union fuel 1 3 [(1, 2); (2, 2)] = Ok (tt, d2) ∧
             ∀ a b, same d1 a b ↔ same d2 a b.
Proof.
  split; [after_union_1_2|].
  apply (union_order_same_classes [(1, 2); (2, 2)] 3 1). after_union_1_2.
Defined.

Lemma queries_keep_roots_witness :
  reachable [(1, 2); (2, 3); (3, 3)] ∧
  (∀ x y : Z, Find 1 ≠ Union x y) ∧
  exec 3 (Find 1) [(1, 2); (2, 3); (3, 3)]
    = Ok (VKey 3, [(1, 3); (2, 3); (3, 3)]) ∧
  ∀ k r, reaches [(1, 2); (2, 3); (3, 3)] k r →
         reaches [(1, 3); (2, 3); (3, 3)] k r.
Proof.
  assert (reachable [(1, 2); (2, 3); (3, 3)]) as Hr by after_union_2_3.
  assert (∀ x y : Z, Find 1 ≠ Union x y) as Hq by done.
  assert (exec 3 (Find 1) [(1, 2); (2, 3); (3, 3)]
          = Ok (VKey 3, [(1, 3); (2, 3); (3, 3)])) as Hex by reflexivity.
  split_and!; [done..|].
  exact (proj1 (queries_keep_roots _ _ _ _ _ Hr Hq Hex)).
Defined.

Lemma keys_after_call_witness :
  reachable [(1, 2); (2, 2)] ∧
  exec 2 (Connected 4 1) [(1, 2); (2, 2)]
    = Ok (VBool false, [(1, 2); (2, 2); (4, 4)]) ∧
  keys [(1, 2); (2, 2); (4, 4)]
    = keys_after (Connected 4 1) (keys [(1, 2); (2, 2)]).
Proof.
  assert (reachable [(1, 2); (2, 2)]) as Hr by after_union_1_2.
  assert (exec 2 (Connected 4 1) [(1, 2); (2, 2)]
          = Ok (VBool false, [(1, 2); (2, 2); (4, 4)])) as Hex by reflexivity.
  split_and!; [done..|]. exact (keys_after_call _ _ _ _ _ Hr Hex).
Defined.

Lemma keys_only_grow_witness :
  reachable [(1, 2); (2, 2)] ∧
  run 2 [Union 3 4; Find 5] [(1, 2); (2, 2)]
    = Ok ([VNone; VKey 5], [(1, 2); (2, 2); (3, 4); (4, 4); (5, 5)]) ∧
  keys [(1, 2); (2, 2)]
    `prefix_of` keys [(1, 2); (2, 2); (3, 4); (4, 4); (5, 5)].
Proof.
  assert (reachable [(1, 2); (2, 2)]) as Hr by after_union_1_2.
  assert (run 2 [Union 3 4; Find 5] [(1, 2); (2, 2)]
          = Ok ([VNone; VKey 5], [(1, 2); (2, 2); (3, 4); (4, 4); (5, 5)]))
    as Hrun by reflexivity.
  split_and!; [done..|]. exact (proj1 (keys_only_grow _ _ _ _ _ Hr Hrun)).
Defined.

Lemma iter_yields_roots_witness :
  reachable [(1, 2); (2, 3); (3, 3)] ∧
  ∃ N, ∀ fuel, (N ≤ fuel)%nat →
    ∃ l d', iter fuel [(1, 2); (2, 3); (3, 3)] = Ok (l, d') ∧
            l.*1 = keys [(1, 2); (2, 3); (3, 3)].
Proof.
  split; [after_union_2_3|].
  destruct (iter_yields_roots [(1, 2); (2, 3); (3, 3)]) as [N HN];
    [after_union_2_3|].
  exists N. intros fuel Hfuel. destruct (HN fuel Hfuel) as (l & d' & ? & ? & _).
  by exists l, d'.
Defined.

Lemma itersets_yields_classes_witness :
  reachable [(1, 2); (2, 3); (3, 3)] ∧
  ∃ N, ∀ fuel, (N ≤ fuel)%nat →
    ∃ sets d', itersets fuel [(1, 2); (2, 3); (3, 3)] = Ok (sets, d') ∧
      ∀ A a, A ∈ sets → a ∈ A →
             ∀ b, b ∈ A ↔ same [(1, 2); (2, 3); (3, 3)] a b.
Proof.
  split; [after_union_2_3|].
  destruct (itersets_yields_classes [(1, 2); (2, 3); (3, 3)]) as [N HN];
    [after_union_2_3|].
  exists N. intros fuel Hfuel. destruct (HN fuel Hfuel) as (l & d' & ? & ? & _).
  by exists l, d'.
Defined.

Lemma repr_groups_by_parent_witness :
  NoDup (keys [(1, 2); (2, 3); (3, 3)]) ∧
  repr Z.ltb pretty pretty [(1, 2); (2, 3); (3, 3)]
    = Ok ("DisjointSet(2 <- [1], 3 <- [2, 3])", [(1, 2); (2, 3); (3, 3)]) ∧
  ∀ v g, get (value_dict Z.ltb [(1, 2); (2, 3); (3, 3)]) v = Some g →
    (∀ k, k ∈ g ↔ get [(1, 2); (2, 3); (3, 3)] k = Some v) ∧
    StronglySorted (λ a b, (a <? b) = true) g.
Proof.
  assert (NoDup (keys [(1, 2); (2, 3); (3, 3)])) as Hnd
    by (apply (bool_decide_unpack _); vm_compute; exact I).
  assert (∀ a b c, (a <? b) = true → (b <? c) = true → (a <? c) = true)
    as Htrans by (intros a b c; rewrite !Z.ltb_lt; lia).
  assert (∀ a b : Z, a ≠ b → (a <? b) = true ∨ (b <? a) = true)
    as Htri by (intros a b; rewrite !Z.ltb_lt; lia).
  split_and!; [done|reflexivity|].
  exact (proj2 (proj2 (proj2
           (repr_groups_by_parent Z.ltb pretty pretty _ Hnd Htrans Htri)))).
Defined.

Lemma repr_after_enumeration_witness :
  reachable [(1, 2); (2, 3); (3, 3)] ∧
  iter 3 [(1, 2); (2, 3); (3, 3)]
    = Ok ([(1, 3); (2, 3); (3, 3)], [(1, 3); (2, 3); (3, 3)]) ∧
  ∀ v g, get (value_dict Z.ltb [(1, 3); (2, 3); (3, 3)]) v = Some g →
    is_root [(1, 3); (2, 3); (3, 3)] v ∧
    ∀ k, k ∈ g ↔ reaches [(1, 2); (2, 3); (3, 3)] k v.
Proof.
  assert (reachable [(1, 2); (2, 3); (3, 3)]) as Hr by after_union_2_3.
  assert (iter 3 [(1, 2); (2, 3); (3, 3)]
          = Ok ([(1, 3); (2, 3); (3, 3)], [(1, 3); (2, 3); (3, 3)]))
    as Hit by reflexivity.
  split_and!; [done..|].
  apply (repr_after_enumeration Z.ltb _ 3%nat _ Hr). left. by eexists.
Defined.
